(** * webppl: the inference-kernel framework and the CPS transformer

    A shallow embedding of [src/inference/kernels.js] (kernel table,
    [parseOptions], the [tap] and [sequence] combinators) and of the CPS
    transformer ([cps] and its helpers), together with the properties of
    the specification that concern them. *)

From Stdlib Require Import FunctionalExtensionality.
From stdpp Require Import gmap strings list fin_maps pretty.

Set Default Proof Using "Type".
#[local] Set Warnings "-register-all".

(** ** Outcomes of host-level computations

    A JavaScript call either returns, or throws.  The third outcome only
    exists in the model: the call depends on a conversion of the host
    language that the model does not cover (see [to_length] below). *)

Inductive exn : Type :=
| AssertionError (msg : string)
| TypeError (msg : string)
| RangeError (msg : string)
| Error (msg : string).

Inductive result (A : Type) : Type :=
| Ret (a : A)
| Throw (e : exn)
| NotModelled.
Arguments Ret {A} a.
Arguments Throw {A} e.
Arguments NotModelled {A}.

Definition result_bind {A B} (r : result A) (f : A → result B) : result B :=
  match r with
  | Ret a => f a
  | Throw e => Throw e
  | NotModelled => NotModelled
  end.

(** * Part I: [src/inference/kernels.js] *)

Module Kernels.

(** Values that travel through option objects.  An object is the list of
    its own enumerable properties, which are data properties, in the order
    [_.keys] enumerates them; its prototype is [Object.prototype], and no
    property is named [__proto__].  A number is an integer; a string is
    the sequence of its code units, which the model takes below 256.  A
    function value made by [parseOptions] is represented by the two
    variables its closure captures, [name] and [options]; [call_closure]
    below is its body. *)
Inductive jsval : Type :=
| JUndefined
| JNull
| JBool (b : bool)
| JNum (z : Z)
| JStr (s : string)
| JArr (elems : list jsval)
| JObj (props : list (string * jsval))
| JClosure (name : string) (options : jsval).

(** [obj[key]] among own properties. *)
Fixpoint get (key : string) (props : list (string * jsval)) : option jsval :=
  match props with
  | [] => None
  | (k, v) :: props' => if decide (k = key) then Some v else get key props'
  end.

(** ** Property order

    The host enumerates the keys that are array indices first, in
    ascending order, and the other keys after them in the order in which
    they were created. *)

Definition digit_of (c : Ascii.ascii) : option N :=
  let n := Ascii.N_of_ascii c in
  if decide (48 ≤ n ≤ 57)%N then Some (n - 48)%N else None.

Fixpoint digits_value (s : string) (acc : N) : option N :=
  match s with
  | EmptyString => Some acc
  | String c s' =>
      match digit_of c with
      | Some d => digits_value s' (acc * 10 + d)%N
      | None => None
      end
  end.

(** An array index is the canonical decimal form of a number below
    [2^32 - 1]. *)
Definition array_index (s : string) : option N :=
  match digits_value s 0 with
  | Some n =>
      if decide (pretty n = s ∧ (n < 4294967295)%N) then Some n else None
  | None => None
  end.

Fixpoint update (key : string) (v : jsval) (props : list (string * jsval))
  : list (string * jsval) :=
  match props with
  | [] => []
  | (k, x) :: props' =>
      if decide (k = key) then (k, v) :: props'
      else (k, x) :: update key v props'
  end.

(** A new index key goes before the first key that is a greater index or
    no index at all. *)
Fixpoint insert_index (i : N) (key : string) (v : jsval)
    (props : list (string * jsval)) : list (string * jsval) :=
  match props with
  | [] => [(key, v)]
  | (k, x) :: props' =>
      match array_index k with
      | Some j =>
          if decide (j < i)%N then (k, x) :: insert_index i key v props'
          else (key, v) :: props
      | None => (key, v) :: props
      end
  end.

(** The assignment [obj[key] = v]. *)
Definition assign (key : string) (v : jsval) (props : list (string * jsval))
  : list (string * jsval) :=
  match get key props with
  | Some _ => update key v props
  | None =>
      match array_index key with
      | Some i => insert_index i key v props
      | None => props ++ [(key, v)]
      end
  end.

(** Own enumerable properties, as [_.keys] sees them: those of an object,
    the indices of an array, none for anything else (a string is no object
    for [_.keys], and a function created by [parseOptions] has no own
    enumerable property). *)
Fixpoint index_props (i : nat) (l : list jsval) : list (string * jsval) :=
  match l with
  | [] => []
  | x :: l' => (pretty i, x) :: index_props (S i) l'
  end.

Definition own_props (v : jsval) : list (string * jsval) :=
  match v with
  | JObj props => props
  | JArr l => index_props 0 l
  | _ => []
  end.

(** [_.extendOwn(dest, src1, ..., srcn)]: for each source in argument
    order and each of its keys in their order, [dest[key] = source[key]];
    later assignments overwrite. *)
Definition assign_own (dest : list (string * jsval)) (src : jsval)
  : list (string * jsval) :=
  foldl (λ d key,
           match get key (own_props src) with
           | Some v => assign key v d
           | None => d
           end)
    dest (own_props src).*1.

Definition extendOwn (dest : list (string * jsval)) (sources : list jsval)
  : list (string * jsval) :=
  foldl assign_own dest sources.

(** The four function objects the kernel table can hold. *)
Inductive kernel_ref : Type :=
| RefMHKernel
| RefHMCwithMHKernel
| RefHMCKernel
| RefSequenceKernel.

(** [var kernels = { MH: ..., HMC: ..., HMConly: ..., sequence: ... }] *)
Definition kernels : gmap string kernel_ref :=
  {[ "MH" := RefMHKernel;
     "HMC" := RefHMCwithMHKernel;
     "HMConly" := RefHMCKernel;
     "sequence" := RefSequenceKernel ]}.

(** [_.has(kernels, name)] *)
Definition has_kernel (name : string) : bool :=
  bool_decide (is_Some (kernels !! name)).

(** [_.size(obj)]: the [length] of what is array-like (a [length] that is
    a number between 0 and [2^53 - 1]), the number of keys otherwise.  The
    functions [parseOptions] makes declare three parameters. *)
Definition MAX_ARRAY_INDEX : Z := 2 ^ 53 - 1.

Definition size (obj : jsval) : Z :=
  match obj with
  | JStr s => Z.of_nat (String.length s)
  | JArr l => Z.of_nat (length l)
  | JClosure _ _ => 3
  | JObj props =>
      match get "length" props with
      | Some (JNum z) =>
          if decide (0 ≤ z ≤ MAX_ARRAY_INDEX)%Z then z
          else Z.of_nat (length props)
      | _ => Z.of_nat (length props)
      end
  | _ => 0
  end.

(** [_.keys(obj)[0]] *)
Definition first_key (obj : jsval) : option string :=
  match obj with
  | JObj ((k, _) :: _) => Some k
  | JArr (_ :: _) => Some "0"
  | _ => None
  end.

(** [isKernelOption]: a registered name, or something of size one whose
    first key is a registered name. *)
Definition isKernelOption (obj : jsval) : bool :=
  match obj with
  | JStr s => has_kernel s
  | _ => false
  end
  || (bool_decide (size obj = 1%Z)
      && match first_key obj with
         | Some k => has_kernel k
         | None => false
         end).

(** [parseOptions].  For a kernel reference that is an object,
    [getKernelName] is its first key and [getKernelOptions] its first
    value.  A bare name has sub-options [{}], and [parseOptions({}) = {}].
    [_.mapObject] keeps the keys in their order, and yields [{}] for a
    function value. *)
Fixpoint parseOptions (obj : jsval) : jsval :=
  match obj with
  | JStr s => if has_kernel s then JClosure s (JObj []) else obj
  | JObj props =>
      if isKernelOption obj then
        match props with
        | (name, sub) :: _ => JClosure name (parseOptions sub)
        | [] => JObj []
        end
      else JObj (map (λ p, (p.1, parseOptions p.2)) props)
  | JArr l => JArr (parseOptions <$> l)
  | JClosure _ _ => JObj []
  | _ => obj
  end.

(** ** What [sequenceKernel] reads of its [kernels] *)

(** [v.length] and [v[0]], for a [v] that is neither [undefined] nor
    [null]. *)
Definition prop_length (v : jsval) : jsval :=
  match v with
  | JArr l => JNum (Z.of_nat (length l))
  | JStr s => JNum (Z.of_nat (String.length s))
  | JClosure _ _ => JNum 3
  | JObj props => default JUndefined (get "length" props)
  | _ => JUndefined
  end.

Definition prop_0 (v : jsval) : jsval :=
  match v with
  | JArr l => default JUndefined (head l)
  | JStr (String c _) => JStr (String c EmptyString)
  | JObj props => default JUndefined (get "0" props)
  | _ => JUndefined
  end.

(** The conversion of a [length] to a number of elements, where it
    involves no conversion of a string to a number and no call of a
    [valueOf] or [toString] of the options: [undefined], [null], objects
    and functions count as 0, [true] as 1, numbers are cut to the range
    from 0 to [2^53 - 1]. *)
Definition to_length (v : jsval) : option Z :=
  match v with
  | JUndefined | JNull => Some 0%Z
  | JBool b => Some (if b then 1 else 0)%Z
  | JNum z => Some (0 `max` (z `min` MAX_ARRAY_INDEX))%Z
  | JClosure _ _ => Some 0%Z
  | JObj props =>
      match get "valueOf" props, get "toString" props with
      | None, None => Some 0%Z
      | _, _ => None
      end
  | JStr _ | JArr _ => None
  end.

Fixpoint chars (s : string) : list jsval :=
  match s with
  | EmptyString => []
  | String c s' => JStr (String c EmptyString) :: chars s'
  end.

(** [_.rest(v)], that is [Array.prototype.slice.call(v, 1)]: the elements
    after the first, as an array.  An array of more than [2^32 - 1]
    elements cannot be made. *)
Definition rest (v : jsval) : result (list jsval) :=
  match v with
  | JArr l => Ret (tail l)
  | JStr s => Ret (tail (chars s))
  | JClosure _ _ => Ret [JUndefined; JUndefined]
  | JObj props =>
      match to_length (default JUndefined (get "length" props)) with
      | Some len =>
          if decide (4294967295 < len - 1)%Z
          then Throw (RangeError "Invalid array length")
          else Ret ((λ i, default JUndefined (get (pretty i) props))
                      <$> seq 1 (Z.to_nat (len - 1)))
      | None => NotModelled
      end
  | JNum _ | JBool _ => Ret []
  | JUndefined | JNull =>
      Throw (TypeError "Array.prototype.slice called on null or undefined")
  end.

(** [options.kernels] *)
Definition prop_kernels (options : jsval) : result jsval :=
  match options with
  | JUndefined | JNull =>
      Throw (TypeError "Cannot read property 'kernels' of undefined")
  | JObj props => Ret (default JUndefined (get "kernels" props))
  | _ => Ret JUndefined
  end.

Section Runtime.
(** [trace] is opaque; [world] is whatever host state side effects act
    on; [ans] is what the outermost continuation returns. *)
Context {trace world ans : Type}.

Definition comp (A : Type) : Type := world → result (A * world).

Definition comp_bind {A B} (c : comp A) (f : A → comp B) : comp B :=
  λ w, result_bind (c w) (λ '(a, w'), f a w').

Definition comp_throw {A} (e : exn) : comp A := λ _, Throw e.

(** The call contract [kernel(continuation, trace, options)]. *)
Definition kernel : Type := (trace → comp ans) → trace → jsval → comp ans.

(** [require('./mhkernel')(env)] and [require('./hmckernel')(env)]. *)
Variable MHKernel HMCKernel : kernel.

Definition HMCwithMHKernel : kernel :=
  λ cont oldTrace options,
    HMCKernel
      (λ trace,
         let opts := extendOwn [("discreteOnly", JBool true)] [options] in
         MHKernel cont trace (JObj opts))
      oldTrace options.

Definition is_one (v : jsval) : bool :=
  match v with
  | JNum z => bool_decide (z = 1%Z)
  | _ => false
  end.

(** [sequenceKernel], given how a value is called as a function.  Reading
    [options.kernels] of [undefined] or [null] throws, and so does reading
    the [length] of a [kernels] that is [undefined] or [null].  Of any
    other [kernels] the source reads [length] and [0] and hands the
    remainder to [_.rest], which always returns an array: [iter] sees
    anything that is no array once at most.  The first element of an empty
    array is [undefined], and calling it throws. *)
Definition sequenceKernel (call : jsval → kernel) : kernel :=
  λ cont oldTrace options,
    let iter :=
      fix iter (cont : trace → comp ans) (trace0 : trace) (ks : list jsval)
        : comp ans :=
        match ks with
        | [] => comp_throw (TypeError "kernels[0] is not a function")
        | [k0] => call k0 cont trace0 options
        | k0 :: rest =>
            call k0 (λ trace2, iter cont trace2 rest) trace0 options
        end in
    match prop_kernels options with
    | Ret (JUndefined | JNull) =>
        comp_throw (TypeError "Cannot read property 'length' of undefined")
    | Ret (JArr ks) => iter cont oldTrace ks
    | Ret kernels =>
        if is_one (prop_length kernels)
        then call (prop_0 kernels) cont oldTrace options
        else
          call (prop_0 kernels)
            (λ trace2,
               match rest kernels with
               | Ret ks => iter cont trace2 ks
               | Throw e => comp_throw e
               | NotModelled => λ _, NotModelled
               end)
            oldTrace options
    | Throw e => comp_throw e
    | NotModelled => λ _, NotModelled
    end.

Definition kernel_of_ref (call : jsval → kernel) (r : kernel_ref) : kernel :=
  match r with
  | RefMHKernel => MHKernel
  | RefHMCwithMHKernel => HMCwithMHKernel
  | RefHMCKernel => HMCKernel
  | RefSequenceKernel => sequenceKernel call
  end.

(** Calling a value as [v(cont, oldTrace, extraOptions)].  Calling what is
    no function throws.  For a closure made by [parseOptions] the call
    runs the body
    [allOptions = _.extendOwn({}, options, extraOptions);
     return kernels[name](cont, oldTrace, allOptions)],
    where [name] is a key of the kernel table, as it is for every closure
    [parseOptions] makes.
    The kernels call each other and their continuations without ever
    returning, so every such call sits on top of the previous one:
    [stack] is the number of calls the host's stack still has room for,
    and a call beyond it throws the host's [RangeError]. *)
Fixpoint call_closure (stack : nat) (v : jsval) : kernel :=
  λ cont oldTrace extraOptions,
    match v with
    | JClosure name options =>
        match stack with
        | O => comp_throw (RangeError "Maximum call stack size exceeded")
        | S stack' =>
            let allOptions := extendOwn [] [options; extraOptions] in
            match kernels !! name with
            | Some r =>
                kernel_of_ref (call_closure stack') r cont oldTrace
                  (JObj allOptions)
            | None => λ _, NotModelled
            end
        end
    | _ => comp_throw (TypeError "not a function")
    end.

(** ** Combinators *)

(** [tap(fn)]: the returned function declares two parameters only. *)
Definition tap (fn : trace → comp jsval) : kernel :=
  λ k trace0 _,
    comp_bind (fn trace0) (λ _, k trace0).

(** The two-kernel case of [sequence]: both kernels are called with two
    arguments, so their [options] parameter is [undefined]. *)
Definition sequence2 (k0 k1 : kernel) : kernel :=
  λ k trace1 _,
    k0 (λ trace2, k1 k trace2 JUndefined) trace1 JUndefined.

(** [sequence(...)]: [assert(kernels.length > 1)], then either the
    two-kernel function or [sequence(kernels[0], sequence(rest...))];
    the outer call has two arguments, hence is [sequence2]. *)
Fixpoint sequence (ks : list kernel) : result kernel :=
  match ks with
  | [] | [_] => Throw (AssertionError "false == true")
  | [k0; k1] => Ret (sequence2 k0 k1)
  | k0 :: rest => result_bind (sequence rest) (λ r, Ret (sequence2 k0 r))
  end.

End Runtime.

End Kernels.

(** * Part II: the CPS transformer *)

Module Cps.

(** ** Syntax trees *)

(** Literal values.  Numbers are the integer-valued ones. *)
Inductive literal : Type :=
| LNum (z : Z)
| LStr (s : string)
| LBool (b : bool)
| LNull.

(** Node kinds of the host grammar that [cps] has no case for. *)
Inductive other_kind : Type :=
| ThisExpression
| AssignmentExpression
| LogicalExpression
| UpdateExpression
| SequenceExpression
| NewExpression
| FunctionDeclaration
| WhileStatement
| ForStatement
| ThrowStatement.

(** A declarator is the pair of its [id] and its [init] ([None] for
    [null]); a property is the triple of its [kind], [key] and [value].
    The builders of the library [ast-types] ([build.callExpression] and the
    like) are the constructors; what that library checks of the fields a
    builder is given is outside the model. *)
Inductive node : Type :=
| Program (body : list node)
| BlockStatement (body : list node)
| IfStatement (test consequent : node) (alternate : option node)
| ConditionalExpression (test consequent alternate : node)
| VariableDeclaration (kind : string) (declarations : list (node * option node))
| Identifier (name : string)
| Literal (value : literal)
| FunctionExpression (id : option node) (params : list node) (body : node)
| CallExpression (callee : node) (arguments : list node)
| ArrayExpression (elements : list node)
| ObjectExpression (properties : list (string * node * node))
| MemberExpression (object property : node) (computed : bool)
| UnaryExpression (operator : string) (argument : node) (prefix : bool)
| BinaryExpression (operator : string) (left right : node)
| ReturnStatement (argument : option node)
| ExpressionStatement (expression : node)
| EmptyStatement
| OtherNode (kind : other_kind) (children : list node).

Definition other_kind_type (k : other_kind) : string :=
  match k with
  | ThisExpression => "ThisExpression"
  | AssignmentExpression => "AssignmentExpression"
  | LogicalExpression => "LogicalExpression"
  | UpdateExpression => "UpdateExpression"
  | SequenceExpression => "SequenceExpression"
  | NewExpression => "NewExpression"
  | FunctionDeclaration => "FunctionDeclaration"
  | WhileStatement => "WhileStatement"
  | ForStatement => "ForStatement"
  | ThrowStatement => "ThrowStatement"
  end.

(** [node.type] *)
Definition node_type (n : node) : string :=
  match n with
  | Program _ => "Program"
  | BlockStatement _ => "BlockStatement"
  | IfStatement _ _ _ => "IfStatement"
  | ConditionalExpression _ _ _ => "ConditionalExpression"
  | VariableDeclaration _ _ => "VariableDeclaration"
  | Identifier _ => "Identifier"
  | Literal _ => "Literal"
  | FunctionExpression _ _ _ => "FunctionExpression"
  | CallExpression _ _ => "CallExpression"
  | ArrayExpression _ => "ArrayExpression"
  | ObjectExpression _ => "ObjectExpression"
  | MemberExpression _ _ _ => "MemberExpression"
  | UnaryExpression _ _ _ => "UnaryExpression"
  | BinaryExpression _ _ _ => "BinaryExpression"
  | ReturnStatement _ => "ReturnStatement"
  | ExpressionStatement _ => "ExpressionStatement"
  | EmptyStatement => "EmptyStatement"
  | OtherNode k _ => other_kind_type k
  end.

(** [types.namedTypes.Statement.check] *)
Definition is_Statement (n : node) : bool :=
  match n with
  | BlockStatement _ | IfStatement _ _ _ | VariableDeclaration _ _
  | ReturnStatement _ | ExpressionStatement _ | EmptyStatement => true
  | OtherNode (FunctionDeclaration | WhileStatement | ForStatement
              | ThrowStatement) _ => true
  | _ => false
  end.

(** [types.namedTypes.Expression.check] *)
Definition is_Expression (n : node) : bool :=
  match n with
  | ConditionalExpression _ _ _ | Identifier _ | Literal _
  | FunctionExpression _ _ _ | CallExpression _ _ | ArrayExpression _
  | ObjectExpression _ | MemberExpression _ _ _ | UnaryExpression _ _ _
  | BinaryExpression _ _ _ => true
  | OtherNode (ThisExpression | AssignmentExpression | LogicalExpression
              | UpdateExpression | SequenceExpression | NewExpression) _ => true
  | _ => false
  end.

Definition is_FunctionExpression (n : option node) : bool :=
  match n with
  | Some (FunctionExpression _ _ _) => true
  | _ => false
  end.

(** ** The compilation monad: the gensym counter, and exceptions *)

(** A compilation step reads the gensym counter and either returns a value
    with the new counter, or throws. *)
Inductive outcome (A : Type) : Type :=
| Done (a : A) (counter : nat)
| Raised (e : exn).
Arguments Done {A} a counter.
Arguments Raised {A} e.

Definition M (A : Type) : Type := nat → outcome A.

Definition ret {A} (a : A) : M A := λ n, Done a n.

Definition bind {A B} (m : M A) (f : A → M B) : M B :=
  λ n, match m n with
       | Done a n' => f a n'
       | Raised e => Raised e
       end.

Definition throw {A} (e : exn) : M A := λ _, Raised e.

Notation "'let*' x := m 'in' k" := (bind m (λ x, k))
  (at level 10, x name, m at level 100, k at level 200,
   format "'[v' 'let*'  x  :=  m  'in' '/' k ']'").
Notation "'let*' ' p := m 'in' k" := (bind m (λ p, k))
  (at level 10, p strict pattern, m at level 100, k at level 200,
   format "'[v' 'let*'  ' p  :=  m  'in' '/' k ']'").

(** Modelled from the spec: [util.gensym], whose file is not part of the
    sources.  A monotonic counter and a name prefix: the counter is
    advanced and its new value is appended to the prefix, so no two calls
    give the same name. *)
Definition gensym (prefix : string) : M string :=
  λ n, Done (prefix +:+ pretty (S n)) (S n).

(** [build.identifier("_return")] *)
Definition returnContIdentifier : node := Identifier "_return".

Definition undefinedIdentifier : node := Identifier "undefined".

Definition makeGensymVariable (name : string) : M node :=
  let* s := gensym name in
  ret (Identifier ("_" +:+ s)).

Definition convertToStatement (n : node) : M node :=
  if is_Statement n then ret n
  else if is_Expression n then ret (ExpressionStatement n)
  else throw (Error ("convertToStatement: can't handle node type: "
                     +:+ node_type n)).

Definition buildFunc (args : list node) (body : node) : M node :=
  match body with
  | BlockStatement _ => ret (FunctionExpression None args body)
  | _ =>
      let* stmt := convertToStatement body in
      ret (FunctionExpression None args (BlockStatement [stmt]))
  end.

(** The functions of the source call each other and [cps]; each is written
    here over the [cps] it calls, and [cps] ties the knot. *)
Section Open.
Variable cps : node → node → M node.

Definition cpsAtomic_ (n : node) : M node :=
  match n with
  | FunctionExpression _ params body =>
      let* newCont := makeGensymVariable "k" in
      let newParams := newCont :: params in
      let* newBody := cps body newCont in
      let* stmt := convertToStatement newBody in
      buildFunc newParams
        (BlockStatement
           [VariableDeclaration "var" [(returnContIdentifier, Some newCont)];
            stmt])
  | Identifier _ | Literal _ => ret n
  | EmptyStatement => ret undefinedIdentifier
  | _ => throw (Error ("cpsAtomic: unknown expression type: " +:+ node_type n))
  end.

(** [cpsSequence].  When the list is empty and the test for the final
    element still fails (it does for the test [length == 1] of blocks), the
    source calls itself on [[].slice(1)], the empty list again, without
    end: the host raises its stack-overflow [RangeError]. *)
Definition cpsSequence_
    (atFinalElement : list node → bool)
    (getFinalElement : list node → list node → M node)
  : list node → list node → M node :=
  fix cpsSequence nodes vars :=
    if atFinalElement nodes then getFinalElement nodes vars
    else
      let* nextVar := makeGensymVariable "s" in
      match nodes with
      | [] => throw (RangeError "Maximum call stack size exceeded")
      | n :: rest =>
          let* body := cpsSequence rest (vars ++ [nextVar]) in
          let* f := buildFunc [nextVar] body in
          cps n f
      end.

Definition length_is (n : nat) (nodes : list node) : bool :=
  bool_decide (length nodes = n).

(** [isFunctionDeclaration]: reading [declarations[0].init] of an empty
    declarator list is a [TypeError]. *)
Definition isFunctionDeclaration (n : node) : M bool :=
  match n with
  | VariableDeclaration _ [] =>
      throw (TypeError "Cannot read property 'init' of undefined")
  | VariableDeclaration _ ((_, init) :: _) => ret (is_FunctionExpression init)
  | _ => ret false
  end.

(** What [assert.equal(node.declarations.length, 1)] throws when the
    lengths differ. *)
Definition not_one_declarator {A B} (declarations : list A) : M B :=
  throw (AssertionError (pretty (length declarations) +:+ " == 1")).

(** Reading [.type] of a [null] child. *)
Definition null_node {A} : M A :=
  throw (TypeError "Cannot read property 'type' of null").

Definition cpsAtomic_nullable (n : option node) : M node :=
  match n with
  | Some n => cpsAtomic_ n
  | None => null_node
  end.

Definition cpsBlock_ (cont : node) : list node → M node :=
  fix cpsBlock nodes :=
    let sequenced :=
      cpsSequence_ (length_is 1)
        (λ nodes _,
           match nodes with
           | n :: _ => cps n cont
           | [] => throw (TypeError "Cannot read property 'type' of undefined")
           end)
        nodes [] in
    match nodes with
    | n0 :: (_ :: _) as rest =>
        let* isFun := isFunctionDeclaration n0 in
        if isFun then
          match n0 with
          | VariableDeclaration _ [(id, init)] =>
              let* newInit := cpsAtomic_nullable init in
              let newFunctionDeclarationNode :=
                VariableDeclaration "var" [(id, Some newInit)] in
              let* newRemainderNode := cpsBlock rest in
              match newRemainderNode with
              | BlockStatement body =>
                  ret (BlockStatement (newFunctionDeclarationNode :: body))
              | _ =>
                  let* stmt := convertToStatement newRemainderNode in
                  ret (BlockStatement [newFunctionDeclarationNode; stmt])
              end
          | VariableDeclaration _ declarations =>
              not_one_declarator declarations
          | _ => throw (TypeError "Cannot read property 'length' of undefined")
          end
        else sequenced
    | _ => sequenced
    end.

Definition cpsPrimitiveApplication_ (opNode : node) (argNodes : list node)
    (cont : node) : M node :=
  cpsSequence_ (length_is 0)
    (λ _ vars, ret (CallExpression cont [CallExpression opNode vars]))
    argNodes [].

Definition cpsCompoundApplication_ (opNode : node) (argNodes : list node)
    (cont : node) : M node :=
  let nodes := opNode :: argNodes in
  cpsSequence_ (length_is 0)
    (λ _ vars,
       match vars with
       | v0 :: rest => ret (CallExpression v0 (cont :: rest))
       | [] => throw (TypeError "callee is undefined")
       end)
    nodes [].

Definition cpsApplication_ (opNode : node) (argNodes : list node)
    (cont : node) : M node :=
  match opNode with
  | MemberExpression _ _ _ => cpsPrimitiveApplication_ opNode argNodes cont
  | _ => cpsCompoundApplication_ opNode argNodes cont
  end.

Definition cpsUnaryExpression_ (opNode : string) (argNode : node)
    (isPrefix : bool) (cont : node) : M node :=
  let nodes := [argNode] in
  cpsSequence_ (length_is 0)
    (λ _ vars,
       match vars with
       | v0 :: _ =>
           ret (CallExpression cont [UnaryExpression opNode v0 isPrefix])
       | [] => throw (TypeError "argument is undefined")
       end)
    nodes [].

Definition cpsBinaryExpression_ (opNode : string) (leftNode rightNode : node)
    (cont : node) : M node :=
  let nodes := [leftNode; rightNode] in
  cpsSequence_ (length_is 0)
    (λ _ vars,
       match vars with
       | [v0; v1] =>
           ret (CallExpression cont [BinaryExpression opNode v0 v1])
       | _ => throw (AssertionError "false == true")
       end)
    nodes [].

Definition cpsConditional_ (test consequent alternate cont : node) : M node :=
  let* contName := makeGensymVariable "cont" in
  let* testName := makeGensymVariable "test" in
  let* consequentNode := cps consequent contName in
  let* alternateNode := cps alternate contName in
  let* inner :=
    buildFunc [testName]
      (ConditionalExpression testName consequentNode alternateNode) in
  let* body := cps test inner in
  let* outer := buildFunc [contName] body in
  ret (CallExpression outer [cont]).

Definition cpsIf_ (test consequent : node) (alternate : option node)
    (cont : node) : M node :=
  let* contName := makeGensymVariable "cont" in
  let* testName := makeGensymVariable "test" in
  let* consequentNode := cps consequent contName in
  let* alternateNode :=
    match alternate with
    | None => ret (CallExpression cont [undefinedIdentifier])
    | Some alternate => cps alternate contName
    end in
  let* consequentStmt := convertToStatement consequentNode in
  let* alternateStmt := convertToStatement alternateNode in
  let* inner :=
    buildFunc [testName]
      (IfStatement testName consequentStmt (Some alternateStmt)) in
  let* body := cps test inner in
  let* outer := buildFunc [contName] body in
  ret (CallExpression outer [cont]).

Definition cpsArrayExpression_ (elements : list node) (cont : node) : M node :=
  cpsSequence_ (length_is 0)
    (λ _ vars, ret (CallExpression cont [ArrayExpression vars]))
    elements [].

Definition cpsObjectExpression_ (cont : node)
  : list (string * node * node) → list (string * node * node) → M node :=
  fix cpsObjectExpression properties props :=
    match properties with
    | [] => ret (CallExpression cont [ObjectExpression props])
    | (kind, key, value) :: rest =>
        let* nextVal := makeGensymVariable "ob" in
        let nextProp := (kind, key, nextVal) in
        let* body := cpsObjectExpression rest (props ++ [nextProp]) in
        let* f := buildFunc [nextVal] body in
        cps value f
    end.

Definition cpsMemberExpression_ (obj prop : node) (computed : bool)
    (cont : node) : M node :=
  if computed then
    let* objName := makeGensymVariable "obj" in
    let* propName := makeGensymVariable "prop" in
    let memberExpr := MemberExpression objName propName computed in
    let* inner := buildFunc [propName] (CallExpression cont [memberExpr]) in
    let* body := cps prop inner in
    let* outer := buildFunc [objName] body in
    cps obj outer
  else
    let* objName := makeGensymVariable "obj" in
    let memberExpr := MemberExpression objName prop false in
    let* f := buildFunc [objName] (CallExpression cont [memberExpr]) in
    cps obj f.

Definition cpsVariableDeclaration_ (declarationId : node)
    (declarationInit : option node) (cont : node) : M node :=
  match declarationInit with
  | Some (FunctionExpression _ _ _ as init) =>
      let* newInit := cpsAtomic_ init in
      let* stmt :=
        convertToStatement (CallExpression cont [undefinedIdentifier]) in
      ret (BlockStatement
             [VariableDeclaration "var" [(declarationId, Some newInit)]; stmt])
  | Some init =>
      let* f :=
        buildFunc [declarationId]
          (CallExpression cont [undefinedIdentifier]) in
      cps init f
  | None => null_node
  end.

End Open.

Fixpoint cps (n : node) (cont : node) {struct n} : M node :=
  match n with
  | BlockStatement body => cpsBlock_ cps cont body
  | Program body =>
      let* block := cpsBlock_ cps cont body in
      let* stmt := convertToStatement block in
      ret (Program [stmt])
  | ReturnStatement (Some argument) => cps argument returnContIdentifier
  | ReturnStatement None => null_node
  | ExpressionStatement expression => cps expression cont
  | EmptyStatement | Identifier _ | Literal _ | FunctionExpression _ _ _ =>
      let* atom := cpsAtomic_ cps n in
      ret (CallExpression cont [atom])
  | VariableDeclaration _ declarations =>
      match declarations with
      | [(id, init)] => cpsVariableDeclaration_ cps id init cont
      | _ => not_one_declarator declarations
      end
  | CallExpression callee arguments => cpsApplication_ cps callee arguments cont
  | IfStatement test consequent alternate =>
      cpsIf_ cps test consequent alternate cont
  | ConditionalExpression test consequent alternate =>
      cpsConditional_ cps test consequent alternate cont
  | ArrayExpression elements => cpsArrayExpression_ cps elements cont
  | ObjectExpression properties => cpsObjectExpression_ cps cont properties []
  | MemberExpression object property computed =>
      cpsMemberExpression_ cps object property computed cont
  | UnaryExpression operator argument prefix =>
      cpsUnaryExpression_ cps operator argument prefix cont
  | BinaryExpression operator leftNode rightNode =>
      cpsBinaryExpression_ cps operator leftNode rightNode cont
  | OtherNode _ _ =>
      throw (Error ("cps: unknown node type: " +:+ node_type n))
  end.

Definition cpsAtomic := cpsAtomic_ cps.
Definition cpsSequence := cpsSequence_ cps.
Definition cpsBlock (nodes : list node) (cont : node) := cpsBlock_ cps cont nodes.
Definition cpsPrimitiveApplication := cpsPrimitiveApplication_ cps.
Definition cpsCompoundApplication := cpsCompoundApplication_ cps.
Definition cpsApplication := cpsApplication_ cps.
Definition cpsUnaryExpression := cpsUnaryExpression_ cps.
Definition cpsBinaryExpression := cpsBinaryExpression_ cps.
Definition cpsConditional := cpsConditional_ cps.
Definition cpsIf := cpsIf_ cps.
Definition cpsArrayExpression := cpsArrayExpression_ cps.
Definition cpsObjectExpression (properties : list (string * node * node))
    (cont : node) (props : list (string * node * node)) :=
  cpsObjectExpression_ cps cont properties props.
Definition cpsMemberExpression := cpsMemberExpression_ cps.
Definition cpsVariableDeclaration := cpsVariableDeclaration_ cps.

End Cps.

(** * Part III: properties of the kernel framework *)

Section KernelFacts.
Import Kernels.

(** ** Properties of the option-merging helpers *)

Lemma get_is_Some key props : is_Some (get key props) ↔ key ∈ props.*1.
Proof.
  induction props as [|[k v] props IH]; simpl.
  - split; [by intros [? ?]|by intros ?%elem_of_nil].
  - case_decide as Hk.
    + subst. split; [intros _; by left|eauto].
    + rewrite IH. split; [by right|].
      intros [?|?]%elem_of_cons; [congruence|done].
Qed.

Lemma get_None key props : get key props = None ↔ key ∉ props.*1.
Proof.
  rewrite <- get_is_Some. destruct (get key props) as [v|].
  - split; [done|]. intros H. destruct H. eauto.
  - split; [|done]. by intros _ [? ?].
Qed.

Lemma get_update key k v props :
  is_Some (get k props) →
  get key (update k v props) = if decide (key = k) then Some v else get key props.
Proof.
  induction props as [|[k' x] props IH]; simpl; [by intros [? ?]|].
  intros Hk. destruct (decide (k' = k)) as [->|Hne]; simpl.
  - by repeat case_decide; simplify_eq.
  - rewrite IH by done.
    by repeat case_decide; simplify_eq.
Qed.

Lemma get_insert_index key i k v props :
  array_index k = Some i →
  get key (insert_index i k v props)
  = if decide (key = k) then Some v else get key props.
Proof.
  intros Hi. induction props as [|[k' x] props IH]; simpl.
  - by repeat case_decide; simplify_eq.
  - destruct (array_index k') as [j|] eqn:Hj.
    + destruct (decide (j < i)%N) as [Hlt|Hge]; simpl.
      * rewrite IH. repeat case_decide; simplify_eq; try done. lia.
      * by repeat case_decide; simplify_eq.
    + simpl. by repeat case_decide; simplify_eq.
Qed.

Lemma get_app key props props' :
  get key (props ++ props') =
  match get key props with
  | Some v => Some v
  | None => get key props'
  end.
Proof.
  induction props as [|[k x] props IH]; simpl; [done|].
  by case_decide.
Qed.

(** After [obj[k] = v], the key [k] holds [v] and every other key holds
    what it held. *)
Lemma get_assign key k v props :
  get key (assign k v props) = if decide (key = k) then Some v else get key props.
Proof.
  unfold assign. destruct (get k props) as [x|] eqn:Hk.
  - apply get_update. by rewrite Hk.
  - destruct (array_index k) as [i|] eqn:Hi.
    + by apply get_insert_index.
    + rewrite get_app. simpl.
      destruct (decide (key = k)) as [->|Hne].
      * by rewrite Hk, decide_True.
      * rewrite decide_False by done. by destruct (get key props).
Qed.

Lemma get_assign_keys key (src dest : list (string * jsval)) keys :
  (∀ k, k ∈ keys → is_Some (get k src)) →
  get key
    (foldl (λ d k, match get k src with
                   | Some v => assign k v d
                   | None => d
                   end) dest keys)
  = if decide (key ∈ keys) then get key src else get key dest.
Proof.
  revert dest. induction keys as [|k keys IH]; intros dest Hkeys; cbn [foldl].
  - case_decide as Hin; [by apply elem_of_nil in Hin|done].
  - rewrite IH by (intros; apply Hkeys; by right).
    destruct (Hkeys k) as [v Hv]; [by left|]. rewrite Hv.
    destruct (decide (key ∈ keys)) as [Hin|Hout].
    + by rewrite (decide_True (P := key ∈ k :: keys)) by (by right).
    + rewrite get_assign. destruct (decide (key = k)) as [->|Hne].
      * by rewrite (decide_True (P := k ∈ k :: keys)) by (by left).
      * rewrite (decide_False (P := key ∈ k :: keys)); [done|].
        by intros [?|?]%elem_of_cons.
Qed.

Lemma get_assign_own dest src key :
  get key (assign_own dest src) =
  match get key (own_props src) with
  | Some v => Some v
  | None => get key dest
  end.
Proof.
  unfold assign_own. rewrite get_assign_keys.
  - case_decide as Hin.
    + apply get_is_Some in Hin as [v Hv]. by rewrite Hv.
    + apply get_None in Hin. by rewrite Hin.
  - intros k Hk. by apply get_is_Some.
Qed.

(** Later sources win: a key is looked up in the last source first. *)
Lemma lookup_extendOwn_snoc dest sources src key :
  get key (extendOwn dest (sources ++ [src])) =
  match get key (own_props src) with
  | Some v => Some v
  | None => get key (extendOwn dest sources)
  end.
Proof.
  unfold extendOwn. rewrite foldl_app. simpl. apply get_assign_own.
Qed.

Lemma lookup_extendOwn_1 dest src key :
  get key (extendOwn dest [src]) =
  match get key (own_props src) with
  | Some v => Some v
  | None => get key dest
  end.
Proof. apply (lookup_extendOwn_snoc dest [] src key). Qed.

Lemma lookup_extendOwn_2 static extra key :
  get key (extendOwn [] [static; extra]) =
  match get key (own_props extra) with
  | Some v => Some v
  | None => get key (own_props static)
  end.
Proof.
  change [static; extra] with ([static] ++ [extra]).
  rewrite lookup_extendOwn_snoc.
  destruct (get key (own_props extra)); [done|].
  rewrite lookup_extendOwn_1. simpl.
  by destruct (get key (own_props static)).
Qed.

(** ** Own properties, said without [own_props] *)

(** [own v key x]: [x] is the own enumerable property [key] of [v]. *)
Inductive own : jsval → string → jsval → Prop :=
| own_obj props key x : get key props = Some x → own (JObj props) key x
| own_arr l (i : nat) x : l !! i = Some x → own (JArr l) (pretty i) x.

Lemma get_index_props key n l x :
  get key (index_props n l) = Some x ↔
  ∃ i : nat, key = pretty (n + i) ∧ l !! i = Some x.
Proof.
  revert n. induction l as [|y l IH]; intros n; simpl.
  - split; [done|]. by intros (i & _ & ?).
  - case_decide as Hk.
    + split.
      * intros [= ->]. exists 0. by rewrite Nat.add_0_r.
      * intros (i & Hi & Hx). subst key. apply (inj pretty) in Hi.
        assert (i = 0) as -> by lia. by simpl in Hx.
    + rewrite IH. split.
      * intros (i & -> & Hx). exists (S i). split; [f_equal; lia|done].
      * intros (i & -> & Hx). destruct i as [|i].
        -- by rewrite Nat.add_0_r in Hk.
        -- exists i. split; [f_equal; lia|done].
Qed.

Lemma own_get v key x : own v key x ↔ get key (own_props v) = Some x.
Proof.
  split.
  - intros [props key' x' H|l i x' H]; simpl; [done|].
    apply get_index_props. by exists i.
  - destruct v; simpl; try done.
    + intros (i & -> & H)%get_index_props. by constructor.
    + by constructor.
Qed.

Lemma own_None v key :
  get key (own_props v) = None ↔ ¬ ∃ y, own v key y.
Proof.
  split.
  - intros H [y Hy%own_get]. congruence.
  - intros H. destruct (get key (own_props v)) as [y|] eqn:Hy; [|done].
    destruct H. exists y. by apply own_get.
Qed.

(** ** Shape of kernel references *)

Lemma has_kernel_lookup name :
  has_kernel name = true → ∃ r, kernels !! name = Some r.
Proof.
  unfold has_kernel. intros H. apply bool_decide_eq_true in H.
  destruct H as [r Hr]. eauto.
Qed.

Lemma has_kernel_names name :
  has_kernel name = true → name ∈ ["MH"; "HMC"; "HMConly"; "sequence"].
Proof.
  intros [r Hr]%has_kernel_lookup. unfold kernels in Hr.
  repeat (apply lookup_insert_Some in Hr as [[<- _]|[_ Hr]];
          [set_solver|]).
  apply lookup_singleton_Some in Hr as [<- _]. set_solver.
Qed.

Lemma isKernelOption_inv obj :
  isKernelOption obj = true →
  (∃ name, obj = JStr name ∧ has_kernel name = true) ∨
  (∃ name sub others,
     obj = JObj ((name, sub) :: others) ∧ has_kernel name = true).
Proof.
  unfold isKernelOption.
  destruct obj as [| | | |s|l|props|n o]; cbn [first_key orb];
    rewrite ?andb_false_r; try discriminate.
  - rewrite orb_false_r. eauto.
  - destruct l; cbn [first_key]; rewrite ?andb_false_r; discriminate.
  - destruct props as [|[name sub] others]; cbn [first_key].
    + by rewrite andb_false_r.
    + intros [_ H]%andb_true_iff. right. eauto.
Qed.

(** The equation the source is written with: the sub-options of a
    reference are themselves parsed. *)
Lemma parseOptions_reference name sub others :
  isKernelOption (JObj ((name, sub) :: others)) = true →
  parseOptions (JObj ((name, sub) :: others)) = JClosure name (parseOptions sub).
Proof. intros H. cbn [parseOptions]. by rewrite H. Qed.

Lemma parseOptions_name name :
  has_kernel name = true → parseOptions (JStr name) = JClosure name (JObj []).
Proof. intros H. simpl. by rewrite H. Qed.

(** ** The HMC kernel with MH correction *)

(** [opts'] is what [HMCwithMHKernel], called with [options], hands to the
    MH stage: whatever the two kernels are, the composed kernel is the HMC
    kernel continued by the MH kernel on [opts']. *)
Definition mh_stage_options (options opts' : jsval) : Prop :=
  ∀ (trace world ans : Type) (MH HMC : @kernel trace world ans) cont oldTrace,
    HMCwithMHKernel MH HMC cont oldTrace options =
    HMC (λ trace0, MH cont trace0 opts') oldTrace options.

(** An MH stand-in that answers with the options it was given, and an HMC
    stand-in that hands its trace on. *)
Definition echo_options : @kernel unit unit jsval :=
  λ _ _ options w, Ret (options, w).
Definition pass_trace : @kernel unit unit jsval :=
  λ cont trace0 _, cont trace0.

Lemma mh_stage_options_unique options opts' :
  mh_stage_options options opts' →
  opts' = JObj (extendOwn [("discreteOnly", JBool true)] [options]).
Proof.
  intros H.
  specialize (H unit unit jsval echo_options pass_trace
                (λ _ w, Ret (JNull, w)) ()).
  apply (f_equal (λ c, c ())) in H. cbv beta in H.
  unfold HMCwithMHKernel, pass_trace, echo_options in H.
  by inversion H.
Qed.

(** C2, as the specification words it, fails: outer options that carry
    [discreteOnly = false] reach the MH stage with that value. *)
Lemma HMCwithMH_discreteOnly_not_forced :
  ¬ ∃ opts',
      mh_stage_options (JObj [("discreteOnly", JBool false)]) opts' ∧
      get "discreteOnly" (own_props opts') = Some (JBool true).
Proof.
  intros (opts' & H & Hl).
  apply mh_stage_options_unique in H. subst opts'.
  vm_compute in Hl. discriminate.
Qed.

(** C2 (amended): the composed kernel runs the HMC kernel and passes the
    resulting trace to the MH kernel, whose options are
    [{discreteOnly: true}] extended with the own properties of the outer
    options.  Every key of the outer options keeps its outer value, so
    [discreteOnly] is [true] by default and is whatever the outer options
    say when they define it. *)
Theorem HMCwithMH_stage_options (options : jsval) :
  let opts' := JObj (extendOwn [("discreteOnly", JBool true)] [options]) in
  mh_stage_options options opts' ∧
  (∀ key,
     get key (own_props opts') =
     match get key (own_props options) with
     | Some v => Some v
     | None => if decide (key = "discreteOnly") then Some (JBool true) else None
     end) ∧
  get "discreteOnly" (own_props opts') =
    Some (default (JBool true) (get "discreteOnly" (own_props options))).
Proof.
  cbv zeta. cbn [own_props]. split; [|split].
  - intros trace world ans MH HMC cont oldTrace. reflexivity.
  - intros key. rewrite lookup_extendOwn_1.
    destruct (get key (own_props options)); [done|].
    cbn [get]. by repeat case_decide; simplify_eq.
  - rewrite lookup_extendOwn_1.
    by destruct (get "discreteOnly" (own_props options)).
Qed.

(** ** Kernel references compiled by [parseOptions] *)

(** C4: a value recognised as a kernel reference compiles to a closure over
    the referenced name and the parsed static options.  Called with
    [(cont, oldTrace, extraOptions)] it runs the registered kernel of that
    name on the merged options, which hold every own property of
    [extraOptions], and the own properties of the static options under
    the keys [extraOptions] does not have: [MH] runs the MH kernel,
    [HMConly] the HMC kernel, [HMC] the HMC kernel continued by the MH
    kernel on the merged options with [discreteOnly = true] as a default,
    and [sequence] runs [sequenceKernel]. *)
Theorem parseOptions_kernel_reference (obj : jsval) :
  isKernelOption obj = true →
  ∃ name static,
    parseOptions obj = JClosure name static ∧
    (obj = JStr name ∧ static = JObj [] ∨
     ∃ sub others,
       obj = JObj ((name, sub) :: others) ∧ static = parseOptions sub) ∧
    name ∈ ["MH"; "HMC"; "HMConly"; "sequence"] ∧
    ∀ (trace world ans : Type) (MH HMC : @kernel trace world ans)
      stack cont oldTrace extraOptions,
      ∃ allOptions mhOptions,
        (∀ key x,
           get key allOptions = Some x ↔
           own extraOptions key x ∨
           (¬ (∃ y, own extraOptions key y)) ∧ own static key x) ∧
        (∀ key,
           get key mhOptions =
           match get key allOptions with
           | Some v => Some v
           | None =>
               if decide (key = "discreteOnly") then Some (JBool true)
               else None
           end) ∧
        call_closure MH HMC (S stack) (parseOptions obj)
          cont oldTrace extraOptions =
        if decide (name = "MH") then MH cont oldTrace (JObj allOptions)
        else if decide (name = "HMConly")
        then HMC cont oldTrace (JObj allOptions)
        else if decide (name = "HMC")
        then HMC (λ trace0, MH cont trace0 (JObj mhOptions))
               oldTrace (JObj allOptions)
        else sequenceKernel (call_closure MH HMC stack)
               cont oldTrace (JObj allOptions).
Proof.
  intros Hobj.
  assert (∃ name static, parseOptions obj = JClosure name static ∧
            has_kernel name = true ∧
            (obj = JStr name ∧ static = JObj [] ∨
             ∃ sub others,
               obj = JObj ((name, sub) :: others) ∧ static = parseOptions sub))
    as (name & static & Hparse & Hhas & Hshape).
  { destruct (isKernelOption_inv obj Hobj)
      as [(name & -> & Hhas)|(name & sub & others & -> & Hhas)].
    - exists name, (JObj []). rewrite parseOptions_name by done. eauto.
    - exists name, (parseOptions sub).
      rewrite parseOptions_reference by done. eauto 8. }
  exists name, static. split; [done|]. split; [done|].
  pose proof (has_kernel_names name Hhas) as Hname. split; [done|].
  intros trace world ans MH HMC stack cont oldTrace extraOptions.
  exists (extendOwn [] [static; extraOptions]).
  exists (extendOwn [("discreteOnly", JBool true)]
            [JObj (extendOwn [] [static; extraOptions])]).
  split; [|split].
  - intros key x. rewrite lookup_extendOwn_2.
    destruct (get key (own_props extraOptions)) as [v|] eqn:Hv.
    + apply own_get in Hv. split.
      * intros [= <-]. by left.
      * intros [Hx|[Hno _]].
        -- apply own_get in Hx, Hv. congruence.
        -- destruct Hno. eauto.
    + rewrite <- own_get. apply own_None in Hv. split; [by right|].
      intros [Hx|[_ Hx]]; [|done]. destruct Hv. eauto.
  - intros key. rewrite lookup_extendOwn_1. cbn [own_props].
    destruct (get key (extendOwn [] [static; extraOptions])); [done|].
    cbn [get]. by repeat case_decide; simplify_eq.
  - rewrite Hparse. cbn [call_closure].
    rewrite !elem_of_cons, elem_of_nil in Hname.
    destruct Hname as [->|[->|[->|[->|[]]]]]; reflexivity.
Qed.

Lemma parseOptions_kernel_reference_witness :
  ∃ opts,
    call_closure echo_options pass_trace 1
      (parseOptions (JObj [("HMC", JObj [("steps", JNum 10)])]))
      (λ _ w, Ret (JNull, w)) () (JObj [("steps", JNum 20)]) ()
    = Ret (JObj opts, ()) ∧
    get "steps" opts = Some (JNum 20) ∧
    get "discreteOnly" opts = Some (JBool true).
Proof.
  destruct (parseOptions_kernel_reference
              (JObj [("HMC", JObj [("steps", JNum 10)])]) eq_refl)
    as (name & static & Hparse & _ & _ & Hcall).
  injection Hparse as <- <-.
  destruct (Hcall unit unit jsval echo_options pass_trace 0
              (λ _ w, Ret (JNull, w)) () (JObj [("steps", JNum 20)]))
    as (allOptions & mhOptions & Hall & Hmh & Heq).
  exists mhOptions. split; [|split].
  - rewrite Heq. reflexivity.
  - rewrite Hmh.
    assert (get "steps" allOptions = Some (JNum 20)) as ->; [|done].
    apply Hall. left. by constructor.
  - rewrite Hmh.
    assert (get "discreteOnly" allOptions = None) as ->; [|done].
    destruct (get "discreteOnly" allOptions) as [x|] eqn:Hx; [|done].
    apply Hall in Hx as [Hx|[_ Hx]]; inversion Hx; simplify_eq.
Defined.

(** The example of the specification: the static [steps = 10] is
    overridden by the dynamic [steps = 20], and the composed HMC+MH kernel
    is the one that runs. *)
Example parseOptions_HMC_steps
  {trace world ans : Type} (MH HMC : @kernel trace world ans)
  stack cont oldTrace :
  call_closure MH HMC (S stack)
    (parseOptions (JObj [("HMC", JObj [("steps", JNum 10)])]))
    cont oldTrace (JObj [("steps", JNum 20)])
  = HMC (λ trace0,
           MH cont trace0
             (JObj [("discreteOnly", JBool true); ("steps", JNum 20)]))
      oldTrace (JObj [("steps", JNum 20)]).
Proof. reflexivity. Qed.

(** [_.size] takes the [length] of what is array-like: an object with a
    second key [length] of value 1 is still a reference to the kernel its
    first key names, and the order of the keys decides. *)
Example parseOptions_array_like_reference :
  parseOptions
    (JObj [("MH", JObj [("HMC", JObj []); ("length", JNum 1)])])
  = JClosure "MH" (JClosure "HMC" (JObj [])) ∧
  isKernelOption (JObj [("HMC", JObj []); ("length", JNum 1)]) = true ∧
  isKernelOption (JObj [("length", JNum 1); ("HMC", JObj [])]) = false ∧
  isKernelOption (JObj [("HMC", JObj []); ("steps", JNum 1)]) = false.
Proof. repeat split. Qed.

End KernelFacts.

(** ** The combinators *)

Section Combinators.
Import Kernels.
Context {trace world ans : Type}.
#[local] Abbreviation kernel := (@kernel trace world ans).
#[local] Abbreviation comp := (@comp world).
Implicit Types (k cont : trace → comp ans) (ks : list kernel).

(** Running kernels one after the other: each gets the trace its
    predecessor produced and no options. *)
Definition run_in_order ks k : trace → comp ans :=
  foldr (λ (ki : kernel) next, λ trace0, ki next trace0 JUndefined) k ks.

Lemma sequence_fold (k0 : kernel) ks :
  2 ≤ length ks →
  sequence (k0 :: ks) = result_bind (sequence ks) (λ r, sequence [k0; r]).
Proof.
  destruct ks as [|k1 [|k2 rest]]; simpl; try lia. intros _.
  by destruct (sequence (k2 :: rest)) eqn:E; destruct rest.
Qed.

Lemma sequence_defined ks : 2 ≤ length ks → ∃ K, sequence ks = Ret K.
Proof.
  induction ks as [|k0 ks IH]; simpl; [lia|].
  destruct ks as [|k1 [|k2 rest]]; simpl in *; [lia|eauto|]. intros _.
  destruct IH as [K HK]; [lia|]. rewrite HK. simpl. eauto.
Qed.

Lemma sequence_runs ks (K : kernel) :
  sequence ks = Ret K →
  ∀ k trace0 options, K k trace0 options = run_in_order ks k trace0.
Proof.
  revert K. induction ks as [|k0 ks IH]; intros K; [done|].
  destruct ks as [|k1 [|k2 rest]]; [done| |].
  - intros [= <-] k trace0 options. reflexivity.
  - change (sequence (k0 :: k1 :: k2 :: rest))
      with (result_bind (sequence (k1 :: k2 :: rest))
              (λ r, Ret (sequence2 k0 r))).
    destruct (sequence (k1 :: k2 :: rest)) as [R| |] eqn:E; try done.
    intros [= <-] k trace0 options.
    unfold sequence2. cbn [run_in_order foldr].
    f_equal. apply functional_extensionality. intros trace2.
    by rewrite (IH R).
Qed.

(** C7: [sequence(A, B, C)] is built as [sequence(A, sequence(B, C))], and
    the kernel it returns runs [A], then [B] on the trace [A] produced, then
    [C] on the trace [B] produced, before the continuation gets the last
    trace. *)
Theorem sequence_three_right_fold (A B C : kernel) :
  sequence [A; B; C] =
    result_bind (sequence [B; C]) (λ BC, sequence [A; BC]) ∧
  ∃ K,
    sequence [A; B; C] = Ret K ∧
    ∀ k trace1 options,
      K k trace1 options =
      A (λ trace2,
           B (λ trace3, C k trace3 JUndefined) trace2 JUndefined)
        trace1 JUndefined.
Proof.
  split.
  - apply sequence_fold. simpl. lia.
  - destruct (sequence_defined [A; B; C]) as [K HK]; [simpl; lia|].
    exists K. split; [done|]. intros k trace1 options.
    by rewrite (sequence_runs _ K HK).
Qed.

(** C9: the kernel made by [tap(fn)] calls [fn] on the trace, drops what it
    returns, and continues with the trace it was given, in the world [fn]
    left behind. *)
Theorem tap_forwards_trace (fn : trace → comp jsval) k trace0 options w r w' :
  fn trace0 w = Ret (r, w') →
  tap fn k trace0 options w = k trace0 w'.
Proof.
  intros Hfn. unfold tap, comp_bind. rewrite Hfn. reflexivity.
Qed.

(** When the inspection function throws, the kernel made by [tap] throws
    the same exception, and the continuation is not called. *)
Lemma tap_propagates_throw (fn : trace → comp jsval) k trace0 options w e :
  fn trace0 w = Throw e →
  tap fn k trace0 options w = Throw e.
Proof.
  intros Hfn. unfold tap, comp_bind. rewrite Hfn. reflexivity.
Qed.

(** The stages of [sequenceKernel]: every function value of the list is
    called with the kernel's own [options]. *)
Definition stages (call : jsval → kernel) (options : jsval)
    (fns : list jsval) cont : trace → comp ans :=
  foldr (λ fn next, λ trace0, call fn next trace0 options) cont fns.

Lemma sequenceKernel_stages call cont oldTrace m fns :
  get "kernels" m = Some (JArr fns) →
  fns ≠ [] →
  sequenceKernel call cont oldTrace (JObj m) =
  stages call (JObj m) fns cont oldTrace.
Proof.
  intros Hm Hne. unfold sequenceKernel. cbn [prop_kernels]. rewrite Hm.
  cbn [default]. clear Hm.
  revert oldTrace. induction fns as [|fn fns IH]; [done|]. intros oldTrace.
  destruct fns as [|fn' fns]; [reflexivity|].
  cbn [stages foldr]. f_equal.
  apply functional_extensionality. intros trace2.
  by apply IH.
Qed.

(** C10: a kernel made by [tap] or by the pairwise [sequence] ignores the
    options it is called with, and the kernels it wraps are called without
    options; [sequenceKernel] hands its options to every stage. *)
Theorem options_forwarding
    (fn : trace → comp jsval) ks (K : kernel) call k trace0 options m fns :
  sequence ks = Ret K →
  get "kernels" m = Some (JArr fns) →
  fns ≠ [] →
  tap fn k trace0 options = tap fn k trace0 JUndefined ∧
  K k trace0 options = K k trace0 JUndefined ∧
  K k trace0 options = run_in_order ks k trace0 ∧
  sequenceKernel call k trace0 (JObj m) =
    stages call (JObj m) fns k trace0.
Proof.
  intros HK Hm Hne. repeat split.
  - by rewrite !(sequence_runs _ K HK).
  - by apply sequence_runs.
  - by apply sequenceKernel_stages.
Qed.

End Combinators.

(** A world that records what happens: inspection functions log the trace
    they see, function values log the options they are called with. *)
Definition log_trace : nat → @Kernels.comp (list nat) Kernels.jsval :=
  λ trace0 w, Ret (Kernels.JUndefined, w ++ [trace0]).

Lemma tap_forwards_trace_witness :
  Kernels.tap log_trace (λ trace0 w, Ret (trace0, w)) 7 Kernels.JNull []
  = Ret (7, [7]).
Proof.
  apply (tap_forwards_trace log_trace (λ trace0 w, Ret (trace0, w))
           7 Kernels.JNull [] Kernels.JUndefined [7]).
  reflexivity.
Defined.

Definition log_options
  : Kernels.jsval → @Kernels.kernel nat (list Kernels.jsval) nat :=
  λ _ cont trace0 options w, cont (S trace0) (w ++ [options]).

Definition add_to_trace (n : nat)
  : @Kernels.kernel nat (list Kernels.jsval) nat :=
  λ cont trace0 options w, cont (n + trace0) (w ++ [options]).

Definition two_stages : list (string * Kernels.jsval) :=
  [("kernels", Kernels.JArr [Kernels.JStr "a"; Kernels.JStr "b"])].

Lemma options_forwarding_witness :
  Kernels.sequence2 (add_to_trace 1) (add_to_trace 2)
    (λ trace0 w, Ret (trace0, w)) 0 (Kernels.JBool true) []
  = Ret (3, [Kernels.JUndefined; Kernels.JUndefined]) ∧
  Kernels.sequenceKernel log_options
    (λ trace0 w, Ret (trace0, w)) 0 (Kernels.JObj two_stages) []
  = Ret (2, [Kernels.JObj two_stages; Kernels.JObj two_stages]).
Proof.
  destruct (options_forwarding (λ _ w, Ret (Kernels.JUndefined, w))
              [add_to_trace 1; add_to_trace 2]
              (Kernels.sequence2 (add_to_trace 1) (add_to_trace 2))
              log_options (λ trace0 w, Ret (trace0, w)) 0
              (Kernels.JBool true) two_stages
              [Kernels.JStr "a"; Kernels.JStr "b"])
    as (_ & _ & Hseq & Hker).
  - reflexivity.
  - reflexivity.
  - discriminate.
  - split.
    + rewrite Hseq. reflexivity.
    + rewrite Hker. reflexivity.
Defined.


(** * Part IV: further properties of the kernel framework *)

Section OptionValues.
Import Kernels.

(** ** Induction over option values *)

Fixpoint jsval_size (v : jsval) : nat :=
  match v with
  | JArr l => S (sum_list (jsval_size <$> l))
  | JObj props => S (sum_list ((λ p, jsval_size p.2) <$> props))
  | JClosure _ options => S (jsval_size options)
  | _ => 1
  end.

Lemma sum_list_ge (l : list nat) n : n ∈ l → n ≤ sum_list l.
Proof.
  induction l as [|x l IH]; [by intros ?%elem_of_nil|].
  intros [->|H]%elem_of_cons; simpl; [lia|]. apply IH in H. lia.
Qed.

Lemma jsval_size_elem v l : v ∈ l → jsval_size v < jsval_size (JArr l).
Proof.
  intros H. simpl. apply Nat.lt_succ_r, sum_list_ge.
  by apply list_elem_of_fmap_2.
Qed.

Lemma jsval_size_field props p :
  p ∈ props → jsval_size p.2 < jsval_size (JObj props).
Proof.
  intros H. simpl. apply Nat.lt_succ_r, sum_list_ge.
  by apply (list_elem_of_fmap_2 (λ p, jsval_size p.2)).
Qed.

Lemma jsval_induction (P : jsval → Prop) :
  P JUndefined → P JNull → (∀ b, P (JBool b)) → (∀ z, P (JNum z)) →
  (∀ s, P (JStr s)) →
  (∀ l, Forall P l → P (JArr l)) →
  (∀ props, Forall (λ p, P p.2) props → P (JObj props)) →
  (∀ name options, P options → P (JClosure name options)) →
  ∀ v, P v.
Proof.
  intros Hu Hn Hb Hz Hs Ha Ho Hc v.
  remember (jsval_size v) as n eqn:Hsize. revert v Hsize.
  induction n as [n IH] using lt_wf_ind. intros v ->.
  destruct v as [| | | | |l|props|name options]; auto.
  - apply Ha, Forall_forall. intros x Hx.
    apply (IH (jsval_size x)); [by apply jsval_size_elem|done].
  - apply Ho, Forall_forall. intros p Hp.
    apply (IH (jsval_size p.2)); [by apply jsval_size_field|done].
  - apply Hc. apply (IH (jsval_size options)); [simpl; lia|done].
Qed.

(** ** What [parseOptions] leaves alone *)

(** Plain data: no registered kernel name as a string or as a key, and no
    function value. *)
Inductive plain : jsval → Prop :=
| plain_undefined : plain JUndefined
| plain_null : plain JNull
| plain_bool b : plain (JBool b)
| plain_num z : plain (JNum z)
| plain_str s : has_kernel s = false → plain (JStr s)
| plain_arr l : Forall plain l → plain (JArr l)
| plain_obj props :
    Forall (λ p, has_kernel p.1 = false ∧ plain p.2) props →
    plain (JObj props).

(** [parseOptions] is the identity on plain data: a configuration that
    names no kernel comes back unchanged. *)
Theorem parseOptions_plain (obj : jsval) :
  plain obj → parseOptions obj = obj.
Proof.
  induction obj as [| | | | s | l IH | props IH | name options IH]
    using jsval_induction; intros Hplain; try done.
  - inversion_clear Hplain as [| | | | ? Hs | |]. simpl. by rewrite Hs.
  - inversion_clear Hplain as [| | | | | ? Hl |]. simpl. f_equal.
    induction l as [|x l IHl]; [done|].
    apply Forall_cons in IH as [Hx IH]. apply Forall_cons in Hl as [Px Hl].
    rewrite fmap_cons. f_equal; auto.
  - inversion_clear Hplain as [| | | | | | ? Hp].
    assert (isKernelOption (JObj props) = false) as Hno.
    { unfold isKernelOption. cbn [orb].
      destruct props as [|[k v] props']; cbn [first_key];
        [by rewrite andb_false_r|].
      apply Forall_cons in Hp as [[Hk _] _]. simpl in Hk.
      by rewrite Hk, andb_false_r. }
    cbn [parseOptions]. rewrite Hno. f_equal.
    clear Hno. induction props as [|[k v] props IHp]; [done|].
    apply Forall_cons in IH as [Hv IH]. apply Forall_cons in Hp as [[_ Pv] Hp].
    simpl in *. f_equal; [f_equal|]; auto.
  - inversion Hplain.
Qed.

Lemma parseOptions_plain_witness :
  parseOptions
    (JObj [("steps", JNum 10); ("labels", JArr [JStr "a"; JBool true])])
  = JObj [("steps", JNum 10); ("labels", JArr [JStr "a"; JBool true])].
Proof.
  apply parseOptions_plain.
  apply plain_obj.
  apply Forall_cons_2.
  { split; [reflexivity|apply plain_num]. }
  apply Forall_cons_2; [|apply Forall_nil_2]. split; [reflexivity|].
  apply plain_arr.
  apply Forall_cons_2; [by apply plain_str|].
  apply Forall_cons_2; [apply plain_bool|apply Forall_nil_2].
Defined.

(** ** The functions [parseOptions] makes *)

(** [part_of v w]: the value [v] occurs in [w], at any depth. *)
Inductive part_of (v : jsval) : jsval → Prop :=
| part_here : part_of v v
| part_elem l x : x ∈ l → part_of v x → part_of v (JArr l)
| part_field props key x :
    (key, x) ∈ props → part_of v x → part_of v (JObj props)
| part_options name options :
    part_of v options → part_of v (JClosure name options).

(** Every function value that occurs in what [parseOptions] returns was
    made for a registered kernel, so [kernels[name]] is defined when its
    body runs.  Function values of the input do not survive. *)
Theorem parseOptions_closures_registered (obj : jsval) name options :
  part_of (JClosure name options) (parseOptions obj) →
  ∃ r, kernels !! name = Some r.
Proof.
  revert name options.
  induction obj as [| | | | s | l IH | props IH | name0 options0 IH]
    using jsval_induction; intros name options Hpart;
    try (by inversion Hpart).
  - simpl in Hpart. destruct (has_kernel s) eqn:Hs.
    + inversion Hpart as [|? ? ? ?|? ? ? ? ?|? ? Hsub]; subst.
      * by apply has_kernel_lookup.
      * inversion Hsub as [|? ? ? ?|? ? ? Hk ?|]; subst.
        by apply elem_of_nil in Hk.
    + inversion Hpart.
  - simpl in Hpart.
    inversion Hpart as [|? x Hx Hsub|? ? ? ? ?|]; subst.
    apply list_elem_of_fmap in Hx as (y & -> & Hy).
    rewrite Forall_forall in IH. by apply (IH y Hy name options).
  - cbn [parseOptions] in Hpart.
    destruct (isKernelOption (JObj props)) eqn:Hk.
    + destruct (isKernelOption_inv _ Hk)
        as [(? & ? & _)|(name1 & sub & others & [= ->] & Hhas)]; [done|].
      apply Forall_cons in IH as [IHsub _]. simpl in IHsub.
      inversion Hpart as [|? ? ? ?|? ? ? ? ?|? ? Hsub]; subst.
      * by apply has_kernel_lookup.
      * by apply (IHsub name options).
    + inversion Hpart as [|? ? ? ?|? key x Hx Hsub|]; subst.
      apply list_elem_of_fmap in Hx as ([k y] & [= -> ->] & Hy).
      rewrite Forall_forall in IH. by apply (IH (k, y) Hy name options).
  - simpl in Hpart.
    inversion Hpart as [|? ? ? ?|? ? ? Hk ?|]; subst.
    by apply elem_of_nil in Hk.
Qed.

Lemma parseOptions_closures_registered_witness :
  ∃ r, kernels !! "MH" = Some r.
Proof.
  apply (parseOptions_closures_registered
           (JArr [JNum 1; JObj [("MH", JObj [])]]) "MH" (JObj [])).
  apply (part_elem _ _ (JClosure "MH" (JObj []))).
  - vm_compute. apply list_elem_of_further, list_elem_of_here.
  - apply part_here.
Defined.

(** ** The lists that stand for objects *)

(** No key twice; the keys that are array indices first, in ascending
    order. *)
Definition key_before (k k' : string) : Prop :=
  match array_index k, array_index k' with
  | Some i, Some j => (i < j)%N
  | None, Some _ => False
  | _, None => True
  end.

Fixpoint keys_in_order (keys : list string) : Prop :=
  match keys with
  | [] => True
  | k :: keys' => Forall (key_before k) keys' ∧ keys_in_order keys'
  end.

Definition well_formed (props : list (string * jsval)) : Prop :=
  NoDup props.*1 ∧ keys_in_order props.*1.

Lemma keys_in_order_app keys k keys' :
  keys_in_order (keys ++ k :: keys') → Forall (λ k0, key_before k0 k) keys.
Proof.
  induction keys as [|k0 keys IH]; simpl; [by constructor|].
  intros [Hall Hord]. constructor; [|by apply IH].
  rewrite Forall_app, Forall_cons in Hall. by destruct Hall as (_ & ? & _).
Qed.

Lemma insert_index_end i k v props :
  array_index k = Some i →
  Forall (λ k0, key_before k0 k) props.*1 →
  insert_index i k v props = props ++ [(k, v)].
Proof.
  intros Hi. induction props as [|[k0 x] props IH]; simpl; [done|].
  intros [Hk0 Hall]%Forall_cons. unfold key_before in Hk0. rewrite Hi in Hk0.
  destruct (array_index k0) as [j|]; [|done].
  rewrite decide_True by done. by rewrite IH.
Qed.

Lemma get_app_here key v props props' :
  key ∉ props.*1 → get key (props ++ (key, v) :: props') = Some v.
Proof.
  intros Hout. rewrite get_app. apply get_None in Hout. rewrite Hout.
  simpl. by rewrite decide_True.
Qed.

(** Creating the properties of an object one after the other, on an empty
    object, gives the object. *)
Lemma assign_own_well_formed props :
  well_formed props → assign_own [] (JObj props) = props.
Proof.
  intros [Hnodup Hord]. unfold assign_own. cbn [own_props].
  enough (∀ post pre, props = pre ++ post →
            foldl (λ d key, match get key props with
                            | Some v => assign key v d
                            | None => d
                            end) pre post.*1 = props) as H
    by (by apply (H props [])).
  induction post as [|[k v] post IH]; intros pre Heq.
  - by rewrite app_nil_r in Heq.
  - cbn [fmap list_fmap foldl fst].
    assert (k ∉ pre.*1) as Hout.
    { rewrite Heq, fmap_app, fmap_cons in Hnodup.
      apply NoDup_app in Hnodup as (_ & Hdisj & _).
      intros Hin. apply (Hdisj k Hin). by left. }
    assert (get k props = Some v) as ->
      by (rewrite Heq; by apply get_app_here).
    assert (assign k v pre = pre ++ [(k, v)]) as ->.
    { unfold assign. apply get_None in Hout. rewrite Hout.
      destruct (array_index k) as [i|] eqn:Hi; [|done].
      apply insert_index_end; [done|].
      rewrite Heq, fmap_app, fmap_cons in Hord.
      by apply keys_in_order_app in Hord. }
    apply IH. by rewrite <- app_assoc.
Qed.

End OptionValues.

Section KernelRuntime.
Import Kernels.
Context {trace world ans : Type}.
#[local] Abbreviation kernel := (@kernel trace world ans).
#[local] Abbreviation comp := (@comp world).
Implicit Types (cont : trace → comp ans) (ks : list kernel).
Variable MH HMC : kernel.

(** [sequence] checks its arity before anything else: it returns a kernel
    exactly when it is given two kernels or more, and fails its assertion
    otherwise. *)
Theorem sequence_arity ks :
  (2 ≤ length ks ↔ ∃ K, sequence ks = Ret K) ∧
  (length ks < 2 ↔ ∃ msg, sequence ks = Throw (AssertionError msg)).
Proof.
  split; split.
  - apply sequence_defined.
  - intros [K HK]. destruct ks as [|k0 [|k1 rest]]; simpl in *; try done; lia.
  - intros Hlen. destruct ks as [|k0 [|k1 rest]]; simpl in *; eauto; lia.
  - intros [msg Hmsg].
    destruct (decide (length ks < 2)) as [|Hge]; [done|].
    destruct (sequence_defined ks) as [K HK]; [lia|]. congruence.
Qed.

(** [sequenceKernel] reads [options.kernels], then its [length] and its
    element [0], and nothing tells an array from another value.  When
    [options] is [undefined] or [null], or has no [kernels], or one that is
    [undefined], [null] or the empty array, the call throws a [TypeError]
    and neither a stage nor the continuation runs.  When [kernels] is an
    object with [length] 1, its property [0] is called as the only stage,
    with the continuation and the options of the kernel. *)
Theorem sequenceKernel_needs_kernels call cont oldTrace options w :
  ((options = JUndefined ∨ options = JNull ∨
    ∃ kernels, prop_kernels options = Ret kernels ∧
               (kernels = JUndefined ∨ kernels = JNull ∨ kernels = JArr [])) →
   ∃ msg, sequenceKernel call cont oldTrace options w = Throw (TypeError msg)) ∧
  (∀ props elems stage,
     options = JObj props →
     get "kernels" props = Some (JObj elems) →
     get "length" elems = Some (JNum 1) →
     get "0" elems = Some stage →
     sequenceKernel call cont oldTrace options w
     = call stage cont oldTrace options w).
Proof.
  split.
  - intros [->|[->|(kernels & Hk & Hcase)]]; [by eexists..|].
    unfold sequenceKernel. rewrite Hk.
    destruct Hcase as [->|[->| ->]]; by eexists.
  - intros props elems stage -> Hk Hlen H0. unfold sequenceKernel.
    cbn [prop_kernels]. rewrite Hk. cbn [default from_option id].
    cbn [prop_length prop_0]. by rewrite Hlen, H0.
Qed.

(** A bare kernel name has no static options: the function made for it
    hands the own properties of the dynamic options to the kernel as they
    are. *)
Theorem bare_name_passes_options name r stack cont oldTrace m :
  kernels !! name = Some r →
  call_closure MH HMC (S stack) (parseOptions (JStr name)) cont oldTrace (JObj m)
  = kernel_of_ref MH HMC (call_closure MH HMC stack) r cont oldTrace
      (JObj (extendOwn [] [JObj []; JObj m])) ∧
  (∀ key, get key (extendOwn [] [JObj []; JObj m]) = get key m) ∧
  (well_formed m → extendOwn [] [JObj []; JObj m] = m).
Proof.
  intros Hr.
  assert (has_kernel name = true) as Hhas.
  { unfold has_kernel. apply bool_decide_eq_true. eauto. }
  rewrite parseOptions_name by done.
  cbn [call_closure]. rewrite Hr. split; [done|]. split.
  - intros key. rewrite lookup_extendOwn_2. cbn [own_props get].
    by destruct (get key m).
  - intros Hwf. by apply assign_own_well_formed.
Qed.

(** A [sequence] closure that is called as a stage of [sequenceKernel]
    gets the outer options as its dynamic options, and their [kernels]
    override its own: it runs the outer list, not the list it was made
    with.  When it is the first stage of that list it is called again, and
    so on until the host's stack is full: the call throws a [RangeError],
    whatever room the stack has, and neither the MH kernel, the HMC kernel
    nor the continuation runs. *)
Theorem nested_sequence_never_returns static outer stack cont oldTrace m w :
  get "kernels" m = Some outer →
  (∃ merged,
     get "kernels" merged = Some outer ∧
     call_closure MH HMC (S stack) (JClosure "sequence" static)
       cont oldTrace (JObj m)
     = sequenceKernel (call_closure MH HMC stack) cont oldTrace (JObj merged)) ∧
  (∀ fns,
     outer = JArr (JClosure "sequence" static :: fns) →
     sequenceKernel (call_closure MH HMC stack) cont oldTrace (JObj m) w
     = Throw (RangeError "Maximum call stack size exceeded")).
Proof.
  intros Hm. split.
  - exists (extendOwn [] [static; JObj m]). split; [|done].
    rewrite lookup_extendOwn_2. cbn [own_props]. by rewrite Hm.
  - intros fns ->. revert cont oldTrace m Hm.
    induction stack as [|stack IH]; intros cont oldTrace m Hm.
    + unfold sequenceKernel. cbn [prop_kernels]. rewrite Hm. cbn [default].
      by destruct fns.
    + unfold sequenceKernel at 1. cbn [prop_kernels]. rewrite Hm.
      cbn [default].
      set (merged := extendOwn [] [static; JObj m]).
      assert (get "kernels" merged
              = Some (JArr (JClosure "sequence" static :: fns))) as Hmerged.
      { unfold merged. rewrite lookup_extendOwn_2. cbn [own_props].
        by rewrite Hm. }
      destruct fns as [|fn fns'];
        cbn [call_closure];
        change (kernels !! "sequence") with (Some RefSequenceKernel);
        cbn [kernel_of_ref]; by apply IH.
Qed.

End KernelRuntime.

Lemma bare_name_passes_options_witness :
  Kernels.call_closure (trace := nat) (world := unit) (ans := Kernels.jsval)
    (λ _ _ options w, Ret (options, w)) (λ cont trace0 _, cont trace0) 1
    (Kernels.parseOptions (Kernels.JStr "MH")) (λ _ w, Ret (Kernels.JNull, w)) 0
    (Kernels.JObj [("steps", Kernels.JNum 5)]) ()
  = Ret (Kernels.JObj [("steps", Kernels.JNum 5)], ()).
Proof.
  destruct (bare_name_passes_options
              (trace := nat) (world := unit) (ans := Kernels.jsval)
              (λ _ _ options w, Ret (options, w)) (λ cont trace0 _, cont trace0)
              "MH" Kernels.RefMHKernel 0
              (λ _ w, Ret (Kernels.JNull, w)) 0
              [("steps", Kernels.JNum 5)] eq_refl) as (Hcall & _ & _).
  rewrite Hcall. reflexivity.
Defined.

Lemma sequenceKernel_needs_kernels_witness :
  (∃ msg,
     Kernels.sequenceKernel (trace := nat) (world := unit) (ans := nat)
       (λ _ cont trace0 _, cont trace0) (λ trace0 w, Ret (trace0, w)) 0
       (Kernels.JObj [("kernels", Kernels.JArr [])]) ()
     = Throw (TypeError msg)) ∧
  Kernels.sequenceKernel (trace := nat) (world := list Kernels.jsval) (ans := nat)
    log_options (λ trace0 w, Ret (trace0, w)) 0
    (Kernels.JObj
       [("kernels",
         Kernels.JObj [("0", Kernels.JStr "f"); ("length", Kernels.JNum 1)])])
    []
  = Ret (1, [Kernels.JObj
               [("kernels",
                 Kernels.JObj
                   [("0", Kernels.JStr "f"); ("length", Kernels.JNum 1)])]]).
Proof.
  split.
  - apply sequenceKernel_needs_kernels.
    right; right. eexists. split; [reflexivity|]. by right; right.
  - rewrite (proj2 (sequenceKernel_needs_kernels _ _ _ _ _)
               [("kernels",
                 Kernels.JObj
                   [("0", Kernels.JStr "f"); ("length", Kernels.JNum 1)])]
               [("0", Kernels.JStr "f"); ("length", Kernels.JNum 1)]
               (Kernels.JStr "f") eq_refl eq_refl eq_refl eq_refl).
    reflexivity.
Defined.

Lemma nested_sequence_never_returns_witness :
  Kernels.sequenceKernel (trace := nat) (world := unit) (ans := nat)
    (Kernels.call_closure
       (λ cont trace0 _, cont trace0) (λ cont trace0 _, cont trace0) 50)
    (λ trace0 w, Ret (trace0, w)) 0
    (Kernels.JObj
       [("kernels",
         Kernels.JArr
           [Kernels.JClosure "sequence"
              (Kernels.JObj
                 [("kernels",
                   Kernels.JArr [Kernels.JClosure "MH" (Kernels.JObj [])])])])])
    ()
  = Throw (RangeError "Maximum call stack size exceeded").
Proof.
  apply (proj2
           (nested_sequence_never_returns _ _
              (Kernels.JObj
                 [("kernels",
                   Kernels.JArr [Kernels.JClosure "MH" (Kernels.JObj [])])])
              (Kernels.JArr
                 [Kernels.JClosure "sequence"
                    (Kernels.JObj
                       [("kernels",
                         Kernels.JArr
                           [Kernels.JClosure "MH" (Kernels.JObj [])])])])
              50 _ 0
              [("kernels",
                Kernels.JArr
                  [Kernels.JClosure "sequence"
                     (Kernels.JObj
                        [("kernels",
                          Kernels.JArr
                            [Kernels.JClosure "MH" (Kernels.JObj [])])])])]
              () eq_refl)
           []).
  reflexivity.
Defined.

Lemma tap_propagates_throw_witness :
  Kernels.tap (trace := nat) (world := unit) (ans := nat)
    (λ _ _, Throw (Error "inspection failed"))
    (λ trace0 w, Ret (trace0, w)) 0 Kernels.JNull ()
  = Throw (Error "inspection failed").
Proof. apply tap_propagates_throw. reflexivity. Defined.
(** * Part V: properties of the CPS transformer *)

Import Cps.

(** ** Induction over syntax trees *)

Section NodeInduction.
Variable P : node → Prop.

Definition P_opt (o : option node) : Prop :=
  match o with Some n => P n | None => True end.

Hypothesis H_Program : ∀ body, Forall P body → P (Program body).
Hypothesis H_Block : ∀ body, Forall P body → P (BlockStatement body).
Hypothesis H_If : ∀ test consequent alternate,
  P test → P consequent → P_opt alternate →
  P (IfStatement test consequent alternate).
Hypothesis H_Conditional : ∀ test consequent alternate,
  P test → P consequent → P alternate →
  P (ConditionalExpression test consequent alternate).
Hypothesis H_Declaration : ∀ kind declarations,
  Forall (λ d, P d.1 ∧ P_opt d.2) declarations →
  P (VariableDeclaration kind declarations).
Hypothesis H_Identifier : ∀ name, P (Identifier name).
Hypothesis H_Literal : ∀ value, P (Literal value).
Hypothesis H_Function : ∀ id params body,
  P_opt id → Forall P params → P body →
  P (FunctionExpression id params body).
Hypothesis H_Call : ∀ callee arguments,
  P callee → Forall P arguments → P (CallExpression callee arguments).
Hypothesis H_Array : ∀ elements,
  Forall P elements → P (ArrayExpression elements).
Hypothesis H_Object : ∀ properties,
  Forall (λ p, P p.1.2 ∧ P p.2) properties → P (ObjectExpression properties).
Hypothesis H_Member : ∀ object property computed,
  P object → P property → P (MemberExpression object property computed).
Hypothesis H_Unary : ∀ operator argument prefix,
  P argument → P (UnaryExpression operator argument prefix).
Hypothesis H_Binary : ∀ operator leftNode rightNode,
  P leftNode → P rightNode → P (BinaryExpression operator leftNode rightNode).
Hypothesis H_Return : ∀ argument,
  P_opt argument → P (ReturnStatement argument).
Hypothesis H_ExpressionStatement : ∀ expression,
  P expression → P (ExpressionStatement expression).
Hypothesis H_Empty : P EmptyStatement.
Hypothesis H_Other : ∀ kind children,
  Forall P children → P (OtherNode kind children).

Fixpoint node_induction (n : node) : P n :=
  let all :=
    fix all (ns : list node) : Forall P ns :=
      match ns with
      | [] => Forall_nil_2 P
      | n :: ns => Forall_cons_2 P n ns (node_induction n) (all ns)
      end in
  let opt (o : option node) : P_opt o :=
    match o with
    | Some n => node_induction n
    | None => I
    end in
  match n with
  | Program body => H_Program body (all body)
  | BlockStatement body => H_Block body (all body)
  | IfStatement t c a =>
      H_If t c a (node_induction t) (node_induction c) (opt a)
  | ConditionalExpression t c a =>
      H_Conditional t c a (node_induction t) (node_induction c)
        (node_induction a)
  | VariableDeclaration kind ds =>
      H_Declaration kind ds
        ((fix decls (ds : list (node * option node))
            : Forall (λ d, P d.1 ∧ P_opt d.2) ds :=
            match ds with
            | [] => Forall_nil_2 _
            | (id, init) :: ds =>
                Forall_cons_2 (λ d, P d.1 ∧ P_opt d.2) (id, init) ds
                  (conj (node_induction id) (opt init)) (decls ds)
            end) ds)
  | Identifier x => H_Identifier x
  | Literal c => H_Literal c
  | FunctionExpression id ps body =>
      H_Function id ps body (opt id) (all ps) (node_induction body)
  | CallExpression callee args =>
      H_Call callee args (node_induction callee) (all args)
  | ArrayExpression elems => H_Array elems (all elems)
  | ObjectExpression props =>
      H_Object props
        ((fix fields (ps : list (string * node * node))
            : Forall (λ p, P p.1.2 ∧ P p.2) ps :=
            match ps with
            | [] => Forall_nil_2 _
            | (kind, k, v) :: ps =>
                Forall_cons_2 (λ p, P p.1.2 ∧ P p.2) (kind, k, v) ps
                  (conj (node_induction k) (node_induction v)) (fields ps)
            end) props)
  | MemberExpression o p c =>
      H_Member o p c (node_induction o) (node_induction p)
  | UnaryExpression op a pre => H_Unary op a pre (node_induction a)
  | BinaryExpression op l r =>
      H_Binary op l r (node_induction l) (node_induction r)
  | ReturnStatement a => H_Return a (opt a)
  | ExpressionStatement e => H_ExpressionStatement e (node_induction e)
  | EmptyStatement => H_Empty
  | OtherNode kind children => H_Other kind children (all children)
  end.

End NodeInduction.

(** ** The compilation monad *)

Lemma bind_Done {A B} (m : M A) (f : A → M B) s b s' :
  bind m f s = Done b s' ↔ ∃ a s1, m s = Done a s1 ∧ f a s1 = Done b s'.
Proof.
  unfold bind. destruct (m s) as [a s1|e].
  - split; [eauto|]. by intros (? & ? & [= <- <-] & ?).
  - split; [done|]. by intros (? & ? & ? & _).
Qed.

Lemma bind_Raised_l {A B} (m : M A) (f : A → M B) s e :
  m s = Raised e → bind m f s = Raised e.
Proof. unfold bind. by intros ->. Qed.

Lemma bind_Done_l {A B} (m : M A) (f : A → M B) s a s1 :
  m s = Done a s1 → bind m f s = f a s1.
Proof. unfold bind. by intros ->. Qed.

Lemma ret_Done {A} (a b : A) s s' : ret a s = Done b s' ↔ a = b ∧ s = s'.
Proof. unfold ret. split; [by intros [= -> ->]|by intros [-> ->]]. Qed.

Lemma throw_Done {A} e (b : A) s s' : throw e s = Done b s' ↔ False.
Proof. done. Qed.

(** The variable that [makeGensymVariable(prefix)] makes when the counter
    stands at [i - 1]. *)
Definition gensym_var (prefix : string) (i : nat) : node :=
  Identifier ("_" +:+ prefix +:+ pretty i).

Lemma makeGensymVariable_eq prefix s :
  makeGensymVariable prefix s = Done (gensym_var prefix (S s)) (S s).
Proof. reflexivity. Qed.

Lemma convertToStatement_Done n stmt s s' :
  convertToStatement n s = Done stmt s' →
  s' = s ∧
  (is_Statement n = true ∧ stmt = n ∨
   is_Statement n = false ∧ is_Expression n = true ∧
   stmt = ExpressionStatement n).
Proof.
  unfold convertToStatement.
  destruct (is_Statement n); [intros [= <- <-]; auto|].
  destruct (is_Expression n); [intros [= <- <-]; auto|done].
Qed.

Lemma buildFunc_Done args body f s s' :
  buildFunc args body s = Done f s' →
  s' = s ∧ ∃ block, f = FunctionExpression None args (BlockStatement block).
Proof.
  destruct body; simpl;
    try (intros [= <- <-]; eauto);
    try (rewrite bind_Done; intros (stmt & s1 & Hc & [= <- <-]);
         apply convertToStatement_Done in Hc as [-> _]; eauto).
Qed.

(** ** Unfolding [cps] and [cpsSequence] *)

Lemma cpsSequence_0_nil getFinal vars :
  cpsSequence (length_is 0) getFinal [] vars = getFinal [] vars.
Proof. reflexivity. Qed.

Lemma cpsSequence_0_cons getFinal n rest vars :
  cpsSequence (length_is 0) getFinal (n :: rest) vars =
  let* nextVar := makeGensymVariable "s" in
  let* body := cpsSequence (length_is 0) getFinal rest (vars ++ [nextVar]) in
  let* f := buildFunc [nextVar] body in
  cps n f.
Proof. reflexivity. Qed.

Lemma cpsSequence_1_nil getFinal vars s :
  cpsSequence (length_is 1) getFinal [] vars s =
  Raised (RangeError "Maximum call stack size exceeded").
Proof. reflexivity. Qed.

Lemma cpsSequence_1_last getFinal n vars :
  cpsSequence (length_is 1) getFinal [n] vars = getFinal [n] vars.
Proof. reflexivity. Qed.

Lemma cpsSequence_1_cons getFinal n rest vars :
  rest ≠ [] →
  cpsSequence (length_is 1) getFinal (n :: rest) vars =
  let* nextVar := makeGensymVariable "s" in
  let* body := cpsSequence (length_is 1) getFinal rest (vars ++ [nextVar]) in
  let* f := buildFunc [nextVar] body in
  cps n f.
Proof. by destruct rest. Qed.

(** ** The shape of a compiled sequence

    [thread bindings final] compiles each node of [bindings] against a
    function that binds the variable paired with it and whose body is the
    compilation of the nodes after it; the innermost body is [final]. *)
Fixpoint thread (bindings : list (node * node)) (final : M node) : M node :=
  match bindings with
  | [] => final
  | (n, v) :: rest =>
      let* body := thread rest final in
      let* f := buildFunc [v] body in
      cps n f
  end.

(** The [m] variables that [cpsSequence] makes from counter [s] on. *)
Definition seq_vars (s m : nat) : list node :=
  gensym_var "s" <$> seq (S s) m.

Lemma seq_vars_S s m :
  seq_vars s (S m) = gensym_var "s" (S s) :: seq_vars (S s) m.
Proof. reflexivity. Qed.

Lemma length_seq_vars s m : length (seq_vars s m) = m.
Proof. unfold seq_vars. by rewrite length_fmap, length_seq. Qed.

Lemma cpsSequence_0_thread getFinal nodes vars s :
  cpsSequence (length_is 0) getFinal nodes vars s =
  thread (zip nodes (seq_vars s (length nodes)))
    (getFinal [] (vars ++ seq_vars s (length nodes)))
    (s + length nodes).
Proof.
  revert vars s. induction nodes as [|n rest IH]; intros vars s.
  - simpl. by rewrite app_nil_r, Nat.add_0_r.
  - rewrite cpsSequence_0_cons. cbn [length].
    rewrite seq_vars_S. cbn [zip zip_with thread].
    rewrite (bind_Done_l _ _ _ _ _ (makeGensymVariable_eq "s" s)).
    unfold bind at 1. rewrite IH.
    rewrite <- app_assoc. cbn [app].
    replace (S s + length rest) with (s + S (length rest)) by lia.
    reflexivity.
Qed.

Lemma cpsSequence_1_thread getFinal nodes last vars s :
  cpsSequence (length_is 1) getFinal (nodes ++ [last]) vars s =
  thread (zip nodes (seq_vars s (length nodes)))
    (getFinal [last] (vars ++ seq_vars s (length nodes)))
    (s + length nodes).
Proof.
  revert vars s. induction nodes as [|n rest IH]; intros vars s.
  - simpl. by rewrite app_nil_r, Nat.add_0_r.
  - cbn [app].
    rewrite cpsSequence_1_cons by (by destruct rest).
    cbn [length]. rewrite seq_vars_S. cbn [zip zip_with thread].
    rewrite (bind_Done_l _ _ _ _ _ (makeGensymVariable_eq "s" s)).
    unfold bind at 1. rewrite IH.
    rewrite <- app_assoc. cbn [app].
    replace (S s + length rest) with (s + S (length rest)) by lia.
    reflexivity.
Qed.

Definition block_sequenced (nodes : list node) (cont : node) : M node :=
  cpsSequence (length_is 1)
    (λ nodes _,
       match nodes with
       | n :: _ => cps n cont
       | [] => throw (TypeError "Cannot read property 'type' of undefined")
       end)
    nodes [].

Lemma cpsBlock_short nodes cont :
  length nodes ≤ 1 → cpsBlock nodes cont = block_sequenced nodes cont.
Proof. destruct nodes as [|n0 [|n1 rest]]; simpl; [done|done|lia]. Qed.

Lemma cpsBlock_long n0 rest cont :
  rest ≠ [] →
  cpsBlock (n0 :: rest) cont =
  let* isFun := isFunctionDeclaration n0 in
  if isFun then
    match n0 with
    | VariableDeclaration _ [(id, init)] =>
        let* newInit := cpsAtomic_nullable cps init in
        let newFunctionDeclarationNode :=
          VariableDeclaration "var" [(id, Some newInit)] in
        let* newRemainderNode := cpsBlock rest cont in
        match newRemainderNode with
        | BlockStatement body =>
            ret (BlockStatement (newFunctionDeclarationNode :: body))
        | _ =>
            let* stmt := convertToStatement newRemainderNode in
            ret (BlockStatement [newFunctionDeclarationNode; stmt])
        end
    | VariableDeclaration _ declarations => not_one_declarator declarations
    | _ => throw (TypeError "Cannot read property 'length' of undefined")
    end
  else block_sequenced (n0 :: rest) cont.
Proof. destruct rest; [done|reflexivity]. Qed.

(** ** What a successful compilation has visited

    [reaches_rejected n]: compiling [n] comes across something [cps]
    rejects: a node of a kind it has no case for, a declaration that does
    not have exactly one declarator with an initialiser, a [return] without
    argument, or a block without statements.  The callee of a member call,
    the name of a static member access, parameters, property keys and
    declared names are emitted as they are and never visited. *)
Fixpoint reaches_rejected (n : node) : bool :=
  match n with
  | Program [] | BlockStatement [] => true
  | Program body | BlockStatement body => existsb reaches_rejected body
  | IfStatement test consequent alternate =>
      reaches_rejected test || reaches_rejected consequent
      || from_option reaches_rejected false alternate
  | ConditionalExpression test consequent alternate =>
      reaches_rejected test || reaches_rejected consequent
      || reaches_rejected alternate
  | VariableDeclaration _ [(_, Some init)] => reaches_rejected init
  | VariableDeclaration _ _ => true
  | Identifier _ | Literal _ | EmptyStatement => false
  | FunctionExpression _ _ body => reaches_rejected body
  | CallExpression (MemberExpression _ _ _) arguments =>
      existsb reaches_rejected arguments
  | CallExpression callee arguments =>
      reaches_rejected callee || existsb reaches_rejected arguments
  | ArrayExpression elements => existsb reaches_rejected elements
  | ObjectExpression properties =>
      existsb (λ p, reaches_rejected p.2) properties
  | MemberExpression object property computed =>
      reaches_rejected object || (computed && reaches_rejected property)
  | UnaryExpression _ argument _ => reaches_rejected argument
  | BinaryExpression _ leftNode rightNode =>
      reaches_rejected leftNode || reaches_rejected rightNode
  | ReturnStatement (Some argument) => reaches_rejected argument
  | ReturnStatement None => true
  | ExpressionStatement expression => reaches_rejected expression
  | OtherNode _ _ => true
  end.

(** [visits_program n]: compiling [n] compiles a [Program] node. *)
Fixpoint visits_program (n : node) : bool :=
  match n with
  | Program _ => true
  | BlockStatement body => existsb visits_program body
  | IfStatement test consequent alternate =>
      visits_program test || visits_program consequent
      || from_option visits_program false alternate
  | ConditionalExpression test consequent alternate =>
      visits_program test || visits_program consequent
      || visits_program alternate
  | VariableDeclaration _ declarations =>
      existsb (λ d, from_option visits_program false d.2) declarations
  | Identifier _ | Literal _ | EmptyStatement => false
  | FunctionExpression _ _ body => visits_program body
  | CallExpression callee arguments =>
      visits_program callee || existsb visits_program arguments
  | ArrayExpression elements => existsb visits_program elements
  | ObjectExpression properties =>
      existsb (λ p, visits_program p.2) properties
  | MemberExpression object property _ =>
      visits_program object || visits_program property
  | UnaryExpression _ argument _ => visits_program argument
  | BinaryExpression _ leftNode rightNode =>
      visits_program leftNode || visits_program rightNode
  | ReturnStatement argument => from_option visits_program false argument
  | ExpressionStatement expression => visits_program expression
  | OtherNode _ _ => false
  end.

Definition call_or_block (n : node) : Prop :=
  match n with
  | CallExpression _ _ | BlockStatement _ => True
  | _ => False
  end.

(** What is known of a node once [cps] has returned on it: the counter did
    not go back, nothing rejected was reached, and the result is a call or
    a block unless a [Program] was compiled on the way. *)
Definition compiled_ok (n : node) : Prop :=
  ∀ cont s out s',
    cps n cont s = Done out s' →
    s ≤ s' ∧ reaches_rejected n = false ∧
    (visits_program n = false → call_or_block out).

(** Inversion of a [Done] hypothesis, one bind at a time. *)
Ltac inv_done H :=
  repeat
    (cbv zeta in H;
     lazymatch type of H with
     | bind _ _ _ = Done _ _ =>
         let a := fresh "a" in let s1 := fresh "s" in let H1 := fresh "Hd" in
         apply bind_Done in H as (a & s1 & H1 & H)
     | ret _ _ = Done _ _ => apply ret_Done in H as [? ?]
     | throw _ _ = Done _ _ => by apply throw_Done in H
     end).

(** The result of a sequence is that of its first node, or the final
    element when there is no node. *)
Definition first_or (nodes : list node) (fin out : node) : Prop :=
  match nodes with
  | [] => out = fin
  | n :: _ => visits_program n = false → call_or_block out
  end.

Lemma thread_ok bindings final s out s' :
  Forall compiled_ok bindings.*1 →
  thread bindings final s = Done out s' →
  ∃ fin sfin, final s = Done fin sfin ∧ sfin ≤ s' ∧
              existsb reaches_rejected bindings.*1 = false ∧
              first_or bindings.*1 fin out.
Proof.
  revert out s'. induction bindings as [|[n v] rest IH]; intros out s' Hall H.
  - simpl in *. eauto 10.
  - apply Forall_cons in Hall as [Hn Hrest]. cbn [thread] in H.
    inv_done H.
    destruct (IH _ _ Hrest Hd) as (fin & sfin & Hfin & Hle & Hex & _).
    apply buildFunc_Done in Hd0 as [-> _].
    apply Hn in H as (Hle' & Hn' & Hkind). simpl in Hn'.
    exists fin, sfin. split; [done|]. split; [lia|].
    rewrite fmap_cons. cbn [existsb fst]. by rewrite Hn', Hex.
Qed.

Lemma zip_seq_vars_fst (nodes : list node) s :
  (zip nodes (seq_vars s (length nodes))).*1 = nodes.
Proof. apply fst_zip. by rewrite length_seq_vars. Qed.

Lemma cpsSequence_0_ok getFinal nodes vars s out s' :
  Forall compiled_ok nodes →
  cpsSequence (length_is 0) getFinal nodes vars s = Done out s' →
  ∃ fin sfin,
    getFinal [] (vars ++ seq_vars s (length nodes)) (s + length nodes)
      = Done fin sfin ∧
    sfin ≤ s' ∧ existsb reaches_rejected nodes = false ∧
    first_or nodes fin out.
Proof.
  intros Hall H. rewrite cpsSequence_0_thread in H.
  apply thread_ok in H as (fin & sfin & ? & ? & Hex & ?);
    rewrite zip_seq_vars_fst in *; eauto 10.
Qed.

Lemma block_sequenced_ok nodes cont s out s' :
  Forall compiled_ok nodes →
  block_sequenced nodes cont s = Done out s' →
  s ≤ s' ∧ nodes ≠ [] ∧ existsb reaches_rejected nodes = false ∧
  (existsb visits_program nodes = false → call_or_block out).
Proof.
  intros Hall H. unfold block_sequenced in H.
  destruct (decide (nodes = [])) as [->|Hne]; [done|].
  destruct (exists_last Hne) as (init & last & ->).
  apply Forall_app in Hall as [Hinit Hlast].
  rewrite Forall_singleton in Hlast.
  rewrite cpsSequence_1_thread in H.
  apply thread_ok in H as (fin & sfin & Hfin & Hle & Hex & Hkind);
    rewrite zip_seq_vars_fst in *; [|done].
  apply Hlast in Hfin as (Hle' & Hl & Hlk).
  split; [lia|]. split; [done|]. split.
  - rewrite existsb_app, Hex. simpl. by rewrite Hl.
  - rewrite existsb_app. intros [Hi Hp]%orb_false_elim.
    simpl in Hp. apply orb_false_elim in Hp as [Hp _].
    destruct init as [|n0 init]; simpl in Hkind.
    + subst out. auto.
    + simpl in Hi. apply orb_false_elim in Hi as [Hn0 _]. auto.
Qed.

Lemma block_rejected (body : list node) mk :
  (mk = Program ∨ mk = BlockStatement) →
  body ≠ [] →
  reaches_rejected (mk body) = existsb reaches_rejected body.
Proof. intros [-> | ->] Hne; by destruct body. Qed.

Lemma cpsBlock_ok nodes cont s out s' :
  Forall compiled_ok nodes →
  cpsBlock nodes cont s = Done out s' →
  s ≤ s' ∧ nodes ≠ [] ∧ existsb reaches_rejected nodes = false ∧
  (existsb visits_program nodes = false → call_or_block out).
Proof.
  revert s out s'. induction nodes as [|n0 rest IH]; intros s out s' Hall H.
  - done.
  - destruct (decide (rest = [])) as [->|Hne].
    { rewrite cpsBlock_short in H by (simpl; lia).
      by apply block_sequenced_ok in H. }
    rewrite cpsBlock_long in H by done.
    apply bind_Done in H as (isFun & s1 & HisFun & H).
    destruct isFun; [|].
    2:{ assert (s1 = s) as ->.
        { destruct n0; simpl in HisFun; try (by inversion HisFun).
          destruct declarations as [|[??]?]; by inversion HisFun. }
        by apply block_sequenced_ok in H. }
    apply Forall_cons in Hall as [Hn0 Hrest].
    destruct n0; try done.
    destruct declarations as [|[id init] [|??]]; try done.
    simpl in HisFun. injection HisFun as Hinit <-.
    destruct init as [init|]; [|done].
    destruct init; try done.
    inv_done H.
    assert (∃ out0,
              cps (VariableDeclaration kind
                     [(id, Some (FunctionExpression id0 params init))])
                (Identifier "k") s = Done out0 s0) as [out0 Hc].
    { eexists. cbn [cps]. unfold cpsVariableDeclaration_.
      rewrite (bind_Done_l _ _ _ _ _ Hd). reflexivity. }
    apply Hn0 in Hc as (Hle & Hr & _).
    destruct (IH _ _ _ Hrest Hd0) as (Hle' & _ & Hex & _).
    assert (s1 = s' ∧ call_or_block out) as [-> Hout].
    { destruct a0; inv_done H; subst; try done;
        apply convertToStatement_Done in Hd1 as [-> _]; by subst. }
    split; [lia|]. split; [done|]. split; [|done].
    cbn [existsb]. rewrite Hex. by rewrite Hr.
Qed.

Lemma cpsObjectExpression_ok properties cont props s out s' :
  Forall (λ p, compiled_ok p.1.2 ∧ compiled_ok p.2) properties →
  cpsObjectExpression properties cont props s = Done out s' →
  s ≤ s' ∧ existsb (λ p, reaches_rejected p.2) properties = false ∧
  (existsb (λ p, visits_program p.2) properties = false → call_or_block out).
Proof.
  revert props s out s'.
  induction properties as [|[[kind k] v] rest IH]; intros props s out s' Hall H.
  - injection H as <- <-. done.
  - apply Forall_cons in Hall as [[_ Hv] Hrest].
    unfold cpsObjectExpression, cpsObjectExpression_ in H.
    cbv beta iota in H. inv_done H.
    injection Hd as <- <-.
    apply IH in Hd0 as (Hle & Hex & _); [|done].
    apply buildFunc_Done in Hd1 as [-> _].
    apply Hv in H as (Hle' & Hv' & Hk).
    split; [lia|]. simpl in *. rewrite Hv', Hex. split; [done|].
    intros [Hp _]%orb_false_elim. auto.
Qed.

Lemma cpsAtomic_function_ok id params body s out s' :
  compiled_ok body →
  cpsAtomic (FunctionExpression id params body) s = Done out s' →
  s ≤ s' ∧ reaches_rejected body = false.
Proof.
  intros Hbody H. unfold cpsAtomic, cpsAtomic_ in H. cbv beta iota in H.
  inv_done H. injection Hd as <- <-.
  apply Hbody in Hd0 as (Hle & Hb & _).
  apply convertToStatement_Done in Hd1 as [-> _].
  apply buildFunc_Done in H as [-> _].
  split; [lia|done].
Qed.

Lemma cps_compiled_ok n : compiled_ok n.
Proof.
  induction n as
    [ body IH | body IH | test cons alternate IHt IHc IHa
    | test cons alt IHt IHc IHa | kind declarations IH | x | c
    | id params body IHid IHparams IHbody | callee arguments IHcallee IHargs
    | elements IH | properties IH | object property computed IHo IHp
    | op argument pre IH | op l r IHl IHr | argument IH | e IH | | k children IH ]
    using node_induction; intros cont s out s' H.
  - (* Program *)
    cbn [cps] in H. inv_done H.
    apply (cpsBlock_ok body cont) in Hd as (Hle & Hne & Hex & _); [|done].
    apply convertToStatement_Done in Hd0 as [-> _]. subst.
    split; [done|]. split; [|done].
    by rewrite (block_rejected body Program) by auto.
  - (* BlockStatement *)
    apply (cpsBlock_ok body cont) in H as (Hle & Hne & Hex & Hk); [|done].
    split; [done|]. split; [|done].
    by rewrite (block_rejected body BlockStatement) by auto.
  - (* IfStatement *)
    cbn [cps] in H. unfold cpsIf_ in H. cbv beta iota in H. inv_done H.
    injection Hd as <- <-. injection Hd0 as <- <-.
    apply IHc in Hd1 as (Hle2 & Hc & _).
    assert (s2 ≤ s3 ∧ from_option reaches_rejected false alternate = false)
      as [Hle3 Ha].
    { destruct alternate as [alt|]; simpl in *.
      - by apply IHa in Hd2 as (? & ? & _).
      - injection Hd2 as _ <-. done. }
    apply convertToStatement_Done in Hd3 as [-> _].
    apply convertToStatement_Done in Hd4 as [-> _].
    apply buildFunc_Done in Hd5 as [-> _].
    apply IHt in Hd6 as (Hle1 & Ht & _).
    apply buildFunc_Done in Hd7 as [-> _]. subst.
    split; [lia|]. split; [|done].
    cbn [reaches_rejected]. by rewrite Ht, Hc, Ha.
  - (* ConditionalExpression *)
    cbn [cps] in H. unfold cpsConditional_ in H. cbv beta iota in H.
    inv_done H.
    injection Hd as <- <-. injection Hd0 as <- <-.
    apply IHc in Hd1 as (Hle2 & Hc & _).
    apply IHa in Hd2 as (Hle3 & Ha & _).
    apply buildFunc_Done in Hd3 as [-> _].
    apply IHt in Hd4 as (Hle1 & Ht & _).
    apply buildFunc_Done in Hd5 as [-> _]. subst.
    split; [lia|]. split; [|done].
    cbn [reaches_rejected]. by rewrite Ht, Hc, Ha.
  - (* VariableDeclaration *)
    cbn [cps] in H.
    destruct declarations as [|[id init] [|??]]; try done.
    rewrite Forall_singleton in IH. destruct IH as [_ Hinit]. simpl in Hinit.
    destruct init as [init|]; [|done].
    cbn [reaches_rejected visits_program existsb from_option snd].
    rewrite orb_false_r.
    destruct init;
      try (unfold cpsVariableDeclaration_ in H; cbv beta iota in H;
           inv_done H; apply buildFunc_Done in Hd as [-> _];
           by apply Hinit in H).
    unfold cpsVariableDeclaration_ in H. cbv beta iota in H. inv_done H.
    apply convertToStatement_Done in Hd0 as [-> _]. subst.
    assert (∃ out0,
              cps (FunctionExpression id0 params init) (Identifier "k") s
              = Done out0 s') as [out0 Hc].
    { eexists. cbn [cps]. rewrite (bind_Done_l _ _ _ _ _ Hd). reflexivity. }
    apply Hinit in Hc as (? & ? & _). done.
  - (* Identifier *)
    cbn [cps] in H. unfold cpsAtomic_ in H. cbv beta iota in H. inv_done H.
    injection Hd as _ <-. by subst.
  - (* Literal *)
    cbn [cps] in H. unfold cpsAtomic_ in H. cbv beta iota in H. inv_done H.
    injection Hd as _ <-. by subst.
  - (* FunctionExpression *)
    cbn [cps] in H. inv_done H. subst.
    by apply (cpsAtomic_function_ok id params body) in Hd as [? ?].
  - (* CallExpression *)
    cbn [cps] in H. unfold cpsApplication_ in H. cbv beta iota in H.
    assert (Forall compiled_ok (callee :: arguments)) as Hall
      by (by apply Forall_cons).
    destruct callee;
      try (apply (cpsSequence_0_ok _ (_ :: arguments)) in H
             as (fin & sfin & Hfin & Hle & Hex & Hk); [|done];
           cbn [length] in Hfin;
           destruct (seq_vars s (S (length arguments))) eqn:E;
             [done|]; simpl in Hfin; injection Hfin as _ <-;
           split; [lia|]; split; [by cbn [existsb reaches_rejected] in *|];
           cbn [first_or visits_program] in *;
           by intros [? _]%orb_false_elim; auto).
    apply (cpsSequence_0_ok _ arguments) in H
      as (fin & sfin & Hfin & Hle & Hex & Hk); [|done].
    injection Hfin as <- <-. split; [lia|]. split; [done|].
    cbn [visits_program]. intros [_ Hp]%orb_false_elim.
    destruct arguments as [|a0 arguments]; simpl in Hk.
    + by subst out.
    + simpl in Hp. apply orb_false_elim in Hp as [? _]. auto.
  - (* ArrayExpression *)
    apply (cpsSequence_0_ok _ elements) in H
      as (fin & sfin & Hfin & Hle & Hex & Hk); [|done].
    injection Hfin as <- <-. split; [lia|]. split; [done|].
    cbn [visits_program]. intros Hp.
    destruct elements as [|a0 elements]; simpl in Hk.
    + by subst out.
    + simpl in Hp. apply orb_false_elim in Hp as [? _]. auto.
  - (* ObjectExpression *)
    by apply (cpsObjectExpression_ok properties cont []) in H.
  - (* MemberExpression *)
    cbn [cps] in H. unfold cpsMemberExpression_ in H. cbv beta iota in H.
    destruct computed; inv_done H.
    + injection Hd as <- <-. injection Hd0 as <- <-.
      apply buildFunc_Done in Hd1 as [-> _].
      apply IHp in Hd2 as (Hle2 & Hp & _).
      apply buildFunc_Done in Hd3 as [-> _].
      apply IHo in H as (Hle1 & Ho & Hk).
      split; [lia|]. cbn [reaches_rejected visits_program].
      rewrite Ho, Hp. split; [done|].
      intros [? _]%orb_false_elim. auto.
    + injection Hd as <- <-.
      apply buildFunc_Done in Hd0 as [-> _].
      apply IHo in H as (Hle1 & Ho & Hk).
      split; [lia|]. cbn [reaches_rejected visits_program].
      rewrite Ho. split; [done|].
      intros [? _]%orb_false_elim. auto.
  - (* UnaryExpression *)
    apply (cpsSequence_0_ok _ [argument]) in H
      as (fin & sfin & Hfin & Hle & Hex & Hk); [|by apply Forall_singleton].
    injection Hfin as _ <-. simpl in *. split; [lia|].
    by apply orb_false_elim in Hex as [-> _].
  - (* BinaryExpression *)
    apply (cpsSequence_0_ok _ [l; r]) in H
      as (fin & sfin & Hfin & Hle & Hex & Hk);
      [|by repeat first [apply Forall_nil_2 | apply Forall_cons_2]].
    injection Hfin as _ <-. simpl in *. split; [lia|].
    apply orb_false_elim in Hex as [-> Hex]. split; [|].
    + by apply orb_false_elim in Hex as [-> _].
    + intros [? _]%orb_false_elim. auto.
  - (* ReturnStatement *)
    destruct argument as [a|]; [|done]. by apply IH in H.
  - (* ExpressionStatement *)
    by apply IH in H.
  - (* EmptyStatement *)
    cbn [cps] in H. unfold cpsAtomic_ in H. cbv beta iota in H. inv_done H.
    injection Hd as _ <-. by subst.
  - (* OtherNode *)
    done.
Qed.

(** ** Failure, the counter and the kind of the result *)

(** [cps] fails, and returns no tree, whenever compilation reaches a node
    of an unsupported kind, a declaration that does not have exactly one
    declarator with an initialiser, a [return] without argument or an
    empty block. *)
Theorem cps_rejects n cont s :
  reaches_rejected n = true → ∃ e, cps n cont s = Raised e.
Proof.
  intros Hr. destruct (cps n cont s) as [out s'|e] eqn:H; [|eauto].
  apply cps_compiled_ok in H as (_ & Hok & _). congruence.
Qed.

Lemma cps_rejects_witness :
  ∃ e,
    cps (Program
           [ExpressionStatement
              (CallExpression (Identifier "f")
                 [OtherNode ThisExpression []; Literal (LNum 1)])])
      (Identifier "k") 0 = Raised e.
Proof. apply cps_rejects. reflexivity. Defined.

(** A compilation that returns never moves the gensym counter back: the
    names made after it are not the ones made before it. *)
Theorem cps_counter_monotone n cont s out s' :
  cps n cont s = Done out s' → s ≤ s'.
Proof. intros H. by apply cps_compiled_ok in H as (? & _). Qed.

Lemma cps_counter_monotone_witness : 0 ≤ 2.
Proof.
  apply (cps_counter_monotone
           (BinaryExpression "+" (Literal (LNum 3)) (Literal (LNum 4)))
           (Identifier "k") 0
           (CallExpression
              (FunctionExpression None [Identifier "_s1"]
                 (BlockStatement
                    [ExpressionStatement
                       (CallExpression
                          (FunctionExpression None [Identifier "_s2"]
                             (BlockStatement
                                [ExpressionStatement
                                   (CallExpression (Identifier "k")
                                      [BinaryExpression "+" (Identifier "_s1")
                                         (Identifier "_s2")])]))
                          [Literal (LNum 4)])]))
              [Literal (LNum 3)])).
  reflexivity.
Defined.

(** ** Which errors compilation raises *)

Definition convert_error (e : exn) : Prop :=
  ∃ t, e = Error ("convertToStatement: can't handle node type: " +:+ t).

(** [failures n]: the errors of the constructs [cps] rejects, for those of
    them that compiling [n] can come across, in the order of the tree.  A
    node of a kind [cps] has no case for gives the error that names its kind;
    a declaration gives the failed assertion on the number of its
    declarators (when it has none and opens a block, reading its first
    declarator fails before that) or the [TypeError] of its missing
    initialiser; a [return] without argument gives the same [TypeError];
    a block without statements gives the [RangeError] of [cpsSequence]. *)
Fixpoint failures (n : node) : list exn :=
  match n with
  | Program [] | BlockStatement [] =>
      [RangeError "Maximum call stack size exceeded"]
  | Program body | BlockStatement body => flat_map failures body
  | IfStatement test consequent alternate =>
      failures test ++ failures consequent
      ++ from_option failures [] alternate
  | ConditionalExpression test consequent alternate =>
      failures test ++ failures consequent ++ failures alternate
  | VariableDeclaration _ [] =>
      [AssertionError "0 == 1";
       TypeError "Cannot read property 'init' of undefined"]
  | VariableDeclaration _ [(_, Some init)] => failures init
  | VariableDeclaration _ [(_, None)] =>
      [TypeError "Cannot read property 'type' of null"]
  | VariableDeclaration _ declarations =>
      [AssertionError (pretty (length declarations) +:+ " == 1")]
  | Identifier _ | Literal _ | EmptyStatement => []
  | FunctionExpression _ _ body => failures body
  | CallExpression callee arguments =>
      match callee with
      | MemberExpression _ _ _ => []
      | _ => failures callee
      end ++ flat_map failures arguments
  | ArrayExpression elements => flat_map failures elements
  | ObjectExpression properties => flat_map (λ p, failures p.2) properties
  | MemberExpression object property computed =>
      failures object ++ (if computed then failures property else [])
  | UnaryExpression _ argument _ => failures argument
  | BinaryExpression _ leftNode rightNode =>
      failures leftNode ++ failures rightNode
  | ReturnStatement (Some argument) => failures argument
  | ReturnStatement None => [TypeError "Cannot read property 'type' of null"]
  | ExpressionStatement expression => failures expression
  | OtherNode _ _ => [Error ("cps: unknown node type: " +:+ node_type n)]
  end.

(** [reported n e]: [e] is the error of a construct of [n] that [cps]
    rejects, and not the error of [convertToStatement]. *)
Definition reported (n : node) (e : exn) : Prop :=
  e ∈ failures n ∧ ¬ convert_error e.

(** [raises_only P m s]: run from the counter [s], the computation [m]
    raises no error but those of [P]. *)
Definition raises_only {A} (P : exn → Prop) (m : M A) (s : nat) : Prop :=
  ∀ e, m s = Raised e → P e.

(** Compiling a [Program] inside a tree gives a [Program], which is neither
    a statement nor an expression; elsewhere what [cps] returns is a call
    or a block. *)
Definition nested_program (n : node) : bool :=
  match n with
  | Program body => existsb visits_program body
  | _ => visits_program n
  end.

Definition is_MemberExpression (n : node) : bool :=
  match n with MemberExpression _ _ _ => true | _ => false end.

Lemma call_or_block_converts n :
  call_or_block n → is_Statement n || is_Expression n = true.
Proof. by destruct n. Qed.

Lemma bind_Raised {A B} (m : M A) (f : A → M B) s e :
  bind m f s = Raised e ↔
  m s = Raised e ∨ ∃ a s1, m s = Done a s1 ∧ f a s1 = Raised e.
Proof.
  unfold bind. destruct (m s) as [a s1|e'].
  - split; [eauto|]. by intros [?|(? & ? & [= <- <-] & ?)].
  - split; [intros [= ->]; by left|]. by intros [[= ->]|(? & ? & ? & _)].
Qed.

Section RaisesOnly.
Variable P : exn → Prop.

Lemma raises_bind {A B} (m : M A) (f : A → M B) s :
  raises_only P m s → (∀ a s1, m s = Done a s1 → raises_only P (f a) s1) →
  raises_only P (bind m f) s.
Proof.
  intros Hm Hf e [H|(a & s1 & Ha & H)]%bind_Raised; [by apply Hm|].
  by apply (Hf a s1 Ha).
Qed.

Lemma raises_ret {A} (a : A) s : raises_only P (ret a) s.
Proof. by intros e. Qed.

Lemma raises_makeGensymVariable name s :
  raises_only P (makeGensymVariable name) s.
Proof. by intros e. Qed.

Lemma raises_throw {A} e s : P e → raises_only P (@throw A e) s.
Proof. by intros He e' [= <-]. Qed.

Lemma raises_convertToStatement n s :
  is_Statement n || is_Expression n = true →
  raises_only P (convertToStatement n) s.
Proof.
  intros H e. unfold convertToStatement.
  destruct (is_Statement n); [done|]. by destruct (is_Expression n).
Qed.

Lemma raises_buildFunc args body s :
  is_Statement body || is_Expression body = true →
  raises_only P (buildFunc args body) s.
Proof.
  intros H. destruct body; try (by apply raises_ret); cbn [buildFunc];
    (apply raises_bind; [by apply raises_convertToStatement|]);
    intros; apply raises_ret.
Qed.

Lemma raises_isFunctionDeclaration n s :
  (∀ e, reported n e → P e) → raises_only P (isFunctionDeclaration n) s.
Proof.
  intros HP. destruct n; try (by apply raises_ret).
  destruct declarations as [|[??]?]; [|by apply raises_ret].
  apply raises_throw, HP. split; [by repeat constructor|by intros [? [=]]].
Qed.

(** [compiles_within n]: whatever the continuation and the counter,
    compiling [n] raises errors of [P] only. *)
Definition compiles_within (n : node) : Prop :=
  ∀ cont s, raises_only P (cps n cont) s.

Lemma raises_thread bindings final s :
  Forall (λ n, visits_program n = false ∧ compiles_within n) bindings.*1 →
  raises_only P final s →
  (∀ out s', final s = Done out s' → call_or_block out) →
  raises_only P (thread bindings final) s ∧
  ∀ out s', thread bindings final s = Done out s' → call_or_block out.
Proof.
  intros Hall Hfinal Hout.
  induction bindings as [|[n v] rest IH]; [done|].
  apply Forall_cons in Hall as [[Hp Hn] Hrest]. cbn [thread].
  destruct (IH Hrest) as [IHr IHd]. split.
  - apply raises_bind; [done|]. intros body s1 Hbody.
    apply raises_bind; [|intros; apply Hn].
    by apply raises_buildFunc, call_or_block_converts, (IHd body s1).
  - intros out s' H. inv_done H.
    by apply cps_compiled_ok in H as (_ & _ & Hk); auto.
Qed.

Lemma raises_cpsSequence_0 getFinal nodes vars s :
  Forall (λ n, visits_program n = false ∧ compiles_within n) nodes →
  (∀ out s', getFinal [] (vars ++ seq_vars s (length nodes))
               (s + length nodes) = Done out s' → call_or_block out) →
  raises_only P
    (getFinal [] (vars ++ seq_vars s (length nodes))) (s + length nodes) →
  raises_only P (cpsSequence (length_is 0) getFinal nodes vars) s.
Proof.
  intros Hall Hout Hq e. rewrite cpsSequence_0_thread.
  apply raises_thread; [|done|done].
  by rewrite zip_seq_vars_fst.
Qed.

Lemma raises_block_sequenced nodes cont s :
  nodes ≠ [] →
  Forall (λ n, visits_program n = false ∧ compiles_within n) nodes →
  raises_only P (block_sequenced nodes cont) s.
Proof.
  intros Hne Hall. unfold block_sequenced.
  destruct (exists_last Hne) as (init & last & ->).
  apply Forall_app in Hall as [Hinit Hlast].
  rewrite Forall_singleton in Hlast. destruct Hlast as [Hpl Hlast].
  intros e. rewrite cpsSequence_1_thread.
  apply raises_thread.
  - by rewrite zip_seq_vars_fst.
  - apply Hlast.
  - intros out s' H. by apply cps_compiled_ok in H as (_ & _ & Hk); auto.
Qed.

Lemma raises_cpsAtomic_function id params body s :
  visits_program body = false → compiles_within body →
  raises_only P (cpsAtomic (FunctionExpression id params body)) s.
Proof.
  intros Hp Hbody. unfold cpsAtomic, cpsAtomic_.
  apply raises_bind; [apply raises_makeGensymVariable|]. intros newCont s1 _.
  apply raises_bind; [apply Hbody|]. intros newBody s2 Hb.
  apply cps_compiled_ok in Hb as (_ & _ & Hk).
  apply raises_bind;
    [by apply raises_convertToStatement, call_or_block_converts, Hk|].
  intros stmt s3 _. by apply raises_buildFunc.
Qed.

Lemma raises_cpsBlock nodes cont s :
  nodes ≠ [] →
  Forall (λ n, visits_program n = false ∧ compiles_within n
               ∧ ∀ e, reported n e → P e) nodes →
  raises_only P (cpsBlock nodes cont) s.
Proof.
  revert s. induction nodes as [|n0 rest IH]; intros s Hne Hall; [done|].
  assert (Forall (λ n, visits_program n = false ∧ compiles_within n)
            (n0 :: rest)) as Hall'.
  { eapply Forall_impl; [exact Hall|]. by intros ? (? & ? & _). }
  destruct (decide (rest = [])) as [->|Hrest].
  { rewrite cpsBlock_short by (simpl; lia). by apply raises_block_sequenced. }
  rewrite cpsBlock_long by done.
  apply Forall_cons in Hall as [(Hp0 & Hn0 & HP0) Hall].
  apply raises_bind; [by apply raises_isFunctionDeclaration|].
  intros isFun s1 HisFun.
  destruct isFun; [|by apply raises_block_sequenced].
  destruct n0; try done.
  destruct declarations as [|[id init] [|d ds]]; try done.
  - destruct init as [init|]; [|done].
    destruct init; try done.
    unfold cpsAtomic_nullable. apply raises_bind.
    { intros e He. apply (Hn0 (Identifier "k") s1 e).
      cbn [cps]. unfold cpsVariableDeclaration_.
      by rewrite (bind_Raised_l _ _ _ _ He). }
    intros newInit s2 _.
    apply raises_bind; [by apply IH|]. intros remainder s3 Hrem.
    apply cpsBlock_ok in Hrem as (_ & _ & _ & Hk);
      [|apply Forall_forall; intros ? _; apply cps_compiled_ok].
    assert (existsb visits_program rest = false) as Hpr.
    { apply not_true_is_false. intros (n & Hin & Hn)%existsb_exists.
      apply list_elem_of_In in Hin.
      rewrite Forall_forall in Hall. destruct (Hall n Hin). congruence. }
    specialize (Hk Hpr).
    destruct remainder; try done; apply raises_ret.
  - apply raises_throw, HP0.
    split; [destruct init; by repeat constructor|by intros [? [=]]].
Qed.

Lemma raises_cpsObjectExpression properties cont props s :
  Forall (λ p, visits_program p.2 = false ∧ compiles_within p.2) properties →
  raises_only P (cpsObjectExpression properties cont props) s.
Proof.
  revert props s.
  induction properties as [|[[kind k] v] rest IH]; intros props s Hall.
  - apply raises_ret.
  - apply Forall_cons in Hall as [[Hpv Hv] Hrest].
    unfold cpsObjectExpression, cpsObjectExpression_. cbv beta iota.
    apply raises_bind; [apply raises_makeGensymVariable|]. intros nextVal s1 _.
    apply raises_bind; [by apply IH|]. intros body s2 Hbody.
    apply (cpsObjectExpression_ok rest cont) in Hbody as (_ & _ & Hk);
      [|apply Forall_forall; intros ? _; split; apply cps_compiled_ok].
    assert (existsb (λ p, visits_program p.2) rest = false) as Hpr.
    { apply not_true_is_false. intros (p & Hin & Hn)%existsb_exists.
      apply list_elem_of_In in Hin.
      rewrite Forall_forall in Hrest. destruct (Hrest p Hin). congruence. }
    apply raises_bind;
      [by apply raises_buildFunc, call_or_block_converts, Hk|].
    intros f s3 _. by apply Hv.
Qed.

End RaisesOnly.

Lemma raises_weaken {A} (P Q : exn → Prop) (m : M A) s :
  (∀ e, P e → Q e) → raises_only P m s → raises_only Q m s.
Proof. intros HPQ Hm e He. by apply HPQ, Hm. Qed.

(** [safe n]: whatever [cps] raises on [n] is reported by [n]. *)
Definition safe (n : node) : Prop := compiles_within (reported n) n.

Lemma safe_within (P : exn → Prop) n :
  safe n → (∀ e, reported n e → P e) → compiles_within P n.
Proof. intros Hn HP cont s. eapply raises_weaken; [exact HP|apply Hn]. Qed.

Lemma elem_of_flat_map {A} (f : A → list exn) x xs e :
  x ∈ xs → e ∈ f x → e ∈ flat_map f xs.
Proof.
  intros Hx He. apply list_elem_of_In, in_flat_map.
  exists x. by rewrite <- !list_elem_of_In.
Qed.

Lemma failures_block (mk : list node → node) body :
  mk = Program ∨ mk = BlockStatement →
  body ≠ [] → failures (mk body) = flat_map failures body.
Proof. intros [-> | ->] Hne; by destruct body. Qed.

Lemma failures_call callee arguments e :
  e ∈ failures (CallExpression callee arguments) ↔
  (is_MemberExpression callee = false ∧ e ∈ failures callee)
  ∨ e ∈ flat_map failures arguments.
Proof.
  assert (failures (CallExpression callee arguments) =
          (if is_MemberExpression callee then [] else failures callee)
          ++ flat_map failures arguments) as -> by (by destruct callee).
  rewrite elem_of_app. destruct (is_MemberExpression callee).
  - split; [intros [[]%elem_of_nil|?]; auto|intros [[[=] _]|?]; auto].
  - split; [intros [?|?]; auto|intros [[_ ?]|?]; auto].
Qed.

(** The nodes of a list that is compiled node by node. *)
Lemma Forall_safe (P : exn → Prop) nodes :
  Forall (λ n, visits_program n = false → safe n) nodes →
  existsb visits_program nodes = false →
  (∀ n e, n ∈ nodes → reported n e → P e) →
  Forall (λ n, visits_program n = false ∧ compiles_within P n
               ∧ ∀ e, reported n e → P e) nodes.
Proof.
  intros Hall Hp HP. apply Forall_forall. intros n Hn.
  rewrite Forall_forall in Hall.
  assert (visits_program n = false) as Hpn.
  { apply not_true_is_false. intros Hv.
    assert (existsb visits_program nodes = true); [|congruence].
    apply existsb_exists. exists n. by rewrite <- list_elem_of_In. }
  split; [done|]. split; [|by eauto].
  apply safe_within; [by apply Hall|by eauto].
Qed.

Lemma Forall_drop_reported (P : exn → Prop) nodes :
  Forall (λ n, visits_program n = false ∧ compiles_within P n
               ∧ ∀ e, reported n e → P e) nodes →
  Forall (λ n, visits_program n = false ∧ compiles_within P n) nodes.
Proof.
  intros H. eapply Forall_impl; [exact H|]. by intros ? (? & ? & _).
Qed.

Lemma reported_elements (mk : list node → node) nodes n e :
  (∀ e, e ∈ flat_map failures nodes → e ∈ failures (mk nodes)) →
  n ∈ nodes → reported n e → reported (mk nodes) e.
Proof.
  intros Hmk Hn [He Hc]. split; [|done].
  by apply Hmk, (elem_of_flat_map failures n).
Qed.

(** The two ways a call is compiled. *)
Lemma cps_member_call callee arguments cont :
  is_MemberExpression callee = true →
  cps (CallExpression callee arguments) cont =
  cpsSequence (length_is 0)
    (λ _ vars, ret (CallExpression cont [CallExpression callee vars]))
    arguments [].
Proof. by destruct callee. Qed.

Lemma cps_compound_call callee arguments cont :
  is_MemberExpression callee = false →
  cps (CallExpression callee arguments) cont =
  cpsSequence (length_is 0)
    (λ _ vars,
       match vars with
       | v0 :: rest => ret (CallExpression v0 (cont :: rest))
       | [] => throw (TypeError "callee is undefined")
       end)
    (callee :: arguments) [].
Proof. by destruct callee. Qed.

Lemma not_convert_error_Error msg :
  (∀ t, msg ≠ "convertToStatement: can't handle node type: " +:+ t) →
  ¬ convert_error (Error msg).
Proof. intros H [t [= Ht]]. by apply (H t). Qed.

Ltac other_error :=
  first
    [ by intros [? [=]]
    | apply not_convert_error_Error; intros ?; discriminate ].

(** The error thrown where the tree is, seen from the node it is thrown
    for. *)
Ltac reported_here :=
  split; [by repeat constructor|other_error].

(** What a part of a node reports, the node reports. *)
Ltac sub_reported :=
  let e := fresh "e" in
  intros e [? ?]; split;
    [cbn [failures from_option]; rewrite ?elem_of_app; auto|done].

Ltac child IH := apply safe_within; [by apply IH|sub_reported].

Lemma safe_elements (mk : list node → node) nodes :
  (∀ e, e ∈ flat_map failures nodes → e ∈ failures (mk nodes)) →
  Forall (λ n, visits_program n = false → safe n) nodes →
  existsb visits_program nodes = false →
  Forall (λ n, visits_program n = false
               ∧ compiles_within (reported (mk nodes)) n
               ∧ ∀ e, reported n e → reported (mk nodes) e) nodes.
Proof.
  intros Hmk Hall Hp. apply Forall_safe; [done|done|].
  intros n e Hn Hr. by apply (reported_elements mk nodes n).
Qed.

Lemma safe_block (mk : list node → node) body cont s :
  mk = Program ∨ mk = BlockStatement →
  Forall (λ n, visits_program n = false → safe n) body →
  existsb visits_program body = false →
  raises_only (reported (mk body)) (cpsBlock body cont) s.
Proof.
  intros Hmk Hall Hp. destruct (decide (body = [])) as [->|Hne].
  - intros e [= <-]. destruct Hmk as [-> | ->]; reported_here.
  - apply raises_cpsBlock; [done|]. apply safe_elements; [|done|done].
    intros e. by rewrite (failures_block mk) by done.
Qed.

Lemma safe_no_program n : visits_program n = false → safe n.
Proof.
  induction n as
    [ body IH | body IH | test cons alternate IHt IHc IHa
    | test cons alt IHt IHc IHa | kind declarations IH | x | c
    | id params body IHid IHparams IHbody | callee arguments IHcallee IHargs
    | elements IH | properties IH | object property computed IHo IHp
    | op argument pre IH | op l r IHl IHr | argument IH | e IH | | k children IH ]
    using node_induction; intros Hp cont s.
  - (* Program *)
    done.
  - (* BlockStatement *)
    apply (safe_block BlockStatement body cont); auto.
  - (* IfStatement *)
    cbn [visits_program] in Hp.
    apply orb_false_elim in Hp as [[Hpt Hpc]%orb_false_elim Hpa].
    cbn [cps]. unfold cpsIf_.
    apply raises_bind; [apply raises_makeGensymVariable|]. intros contName s1 _.
    apply raises_bind; [apply raises_makeGensymVariable|]. intros testName s2 _.
    apply raises_bind; [by child IHc|]. intros consNode s3 Hc.
    apply cps_compiled_ok in Hc as (_ & _ & Hkc). specialize (Hkc Hpc).
    apply raises_bind.
    { destruct alternate as [alt|]; [by child IHa|apply raises_ret]. }
    intros altNode s4 Ha.
    assert (call_or_block altNode) as Hka.
    { destruct alternate as [alt|].
      - by apply cps_compiled_ok in Ha as (_ & _ & Hk); auto.
      - by injection Ha as <- _. }
    apply raises_bind;
      [by apply raises_convertToStatement, call_or_block_converts|].
    intros consStmt s5 _.
    apply raises_bind;
      [by apply raises_convertToStatement, call_or_block_converts|].
    intros altStmt s6 _.
    apply raises_bind; [by apply raises_buildFunc|]. intros inner s7 _.
    apply raises_bind; [by child IHt|]. intros body s8 Hb.
    apply cps_compiled_ok in Hb as (_ & _ & Hkb). specialize (Hkb Hpt).
    apply raises_bind; [by apply raises_buildFunc, call_or_block_converts|].
    intros; apply raises_ret.
  - (* ConditionalExpression *)
    cbn [visits_program] in Hp.
    apply orb_false_elim in Hp as [[Hpt Hpc]%orb_false_elim Hpa].
    cbn [cps]. unfold cpsConditional_.
    apply raises_bind; [apply raises_makeGensymVariable|]. intros contName s1 _.
    apply raises_bind; [apply raises_makeGensymVariable|]. intros testName s2 _.
    apply raises_bind; [by child IHc|]. intros consNode s3 _.
    apply raises_bind; [by child IHa|]. intros altNode s4 _.
    apply raises_bind; [by apply raises_buildFunc|]. intros inner s7 _.
    apply raises_bind; [by child IHt|]. intros body s8 Hb.
    apply cps_compiled_ok in Hb as (_ & _ & Hkb). specialize (Hkb Hpt).
    apply raises_bind; [by apply raises_buildFunc, call_or_block_converts|].
    intros; apply raises_ret.
  - (* VariableDeclaration *)
    cbn [cps].
    destruct declarations as [|[id init] [|??]];
      try (destruct init; apply raises_throw; reported_here).
    { apply raises_throw. reported_here. }
    rewrite Forall_singleton in IH. destruct IH as [_ Hinit]. simpl in Hinit.
    cbn [visits_program existsb from_option snd] in Hp.
    rewrite orb_false_r in Hp.
    destruct init as [init|]; [|apply raises_throw; reported_here].
    simpl in Hp. specialize (Hinit Hp).
    destruct init;
      try (unfold cpsVariableDeclaration_;
           apply raises_bind; [by apply raises_buildFunc|];
           intros; by apply safe_within).
    unfold cpsVariableDeclaration_.
    apply raises_bind.
    { intros e He. apply (Hinit (Identifier "k") s e).
      cbn [cps]. by rewrite (bind_Raised_l _ _ _ _ He). }
    intros newInit s1 _.
    apply raises_bind; [by apply raises_convertToStatement|].
    intros; apply raises_ret.
  - (* Identifier *)
    done.
  - (* Literal *)
    done.
  - (* FunctionExpression *)
    cbn [cps].
    apply raises_bind; [|intros; apply raises_ret].
    apply (raises_cpsAtomic_function _ id params body); [done|].
    by apply safe_within; [apply IHbody|].
  - (* CallExpression *)
    cbn [visits_program] in Hp.
    apply orb_false_elim in Hp as [Hpc Hpa].
    destruct (is_MemberExpression callee) eqn:Hm.
    + rewrite cps_member_call by done.
      apply raises_cpsSequence_0;
        [|by intros ?? [= <- _]|apply raises_ret].
      apply Forall_drop_reported, Forall_safe; [done|done|].
      intros n e Hn [He Hc]. split; [|done].
      apply failures_call. right. by apply (elem_of_flat_map failures n).
    + rewrite cps_compound_call by done.
      apply raises_cpsSequence_0.
      * apply Forall_drop_reported, Forall_safe;
          [by apply Forall_cons|by cbn [existsb]; rewrite Hpc, Hpa|].
        intros n e Hn [He Hc]. split; [|done].
        apply failures_call. apply elem_of_cons in Hn as [->|Hn]; [by left|].
        right. by apply (elem_of_flat_map failures n).
      * cbn [length]. rewrite seq_vars_S. by intros ?? [= <- _].
      * cbn [length]. rewrite seq_vars_S. apply raises_ret.
  - (* ArrayExpression *)
    apply (raises_cpsSequence_0 _ _ elements);
      [|by intros ?? [= <- _]|apply raises_ret].
    by apply Forall_drop_reported, (safe_elements ArrayExpression).
  - (* ObjectExpression *)
    apply (raises_cpsObjectExpression _ properties cont []).
    cbn [visits_program] in Hp.
    apply Forall_forall. intros p Hin.
    assert (visits_program p.2 = false) as Hpp.
    { apply not_true_is_false. intros Hv.
      assert (existsb (λ p, visits_program p.2) properties = true);
        [|congruence].
      apply existsb_exists. exists p. by rewrite <- list_elem_of_In. }
    split; [done|]. rewrite Forall_forall in IH.
    apply safe_within; [by apply (IH p Hin)|].
    intros e [He Hc]. split; [|done]. cbn [failures].
    by apply (elem_of_flat_map (λ p, failures p.2) p).
  - (* MemberExpression *)
    cbn [visits_program] in Hp. apply orb_false_elim in Hp as [Hpo Hpp].
    cbn [cps]. unfold cpsMemberExpression_.
    destruct computed.
    + apply raises_bind; [apply raises_makeGensymVariable|]. intros objName s1 _.
      apply raises_bind; [apply raises_makeGensymVariable|]. intros propName s2 _.
      apply raises_bind; [by apply raises_buildFunc|]. intros inner s3 _.
      apply raises_bind; [by child IHp|]. intros body s4 Hb.
      apply cps_compiled_ok in Hb as (_ & _ & Hkb). specialize (Hkb Hpp).
      apply raises_bind; [by apply raises_buildFunc, call_or_block_converts|].
      intros; by child IHo.
    + apply raises_bind; [apply raises_makeGensymVariable|]. intros objName s1 _.
      apply raises_bind; [by apply raises_buildFunc|].
      intros; by child IHo.
  - (* UnaryExpression *)
    apply (raises_cpsSequence_0 _ _ [argument]);
      [|by intros ?? [= <- _]|apply raises_ret].
    apply Forall_singleton. split; [done|]. by apply safe_within; [apply IH|].
  - (* BinaryExpression *)
    cbn [visits_program] in Hp. apply orb_false_elim in Hp as [Hpl Hpr].
    apply (raises_cpsSequence_0 _ _ [l; r]);
      [|by intros ?? [= <- _]|apply raises_ret].
    repeat first [apply Forall_nil_2 | apply Forall_cons_2];
      (split; [done|]); [by child IHl|by child IHr].
  - (* ReturnStatement *)
    destruct argument as [a|]; [|apply raises_throw; reported_here].
    cbn [cps]. by apply safe_within; [apply IH|].
  - (* ExpressionStatement *)
    cbn [cps]. by apply safe_within; [apply IH|].
  - (* EmptyStatement *)
    done.
  - (* OtherNode *)
    apply raises_throw. reported_here.
Qed.

(** Whatever [cps] raises on a tree whose only [Program] is its root is
    the error of a construct of the tree that [cps] rejects. *)
Lemma cps_reported n cont s :
  nested_program n = false → raises_only (reported n) (cps n cont) s.
Proof.
  intros Hp. destruct n; try (by apply safe_no_program).
  cbn [nested_program] in Hp. cbn [cps].
  assert (Forall (λ n, visits_program n = false → safe n) body) as Hall.
  { apply Forall_forall. intros ? _. apply safe_no_program. }
  apply raises_bind; [by apply (safe_block Program body cont); auto|].
  intros block s1 Hb.
  apply cpsBlock_ok in Hb as (_ & _ & _ & Hk);
    [|apply Forall_forall; intros ? _; apply cps_compiled_ok].
  apply raises_bind;
    [by apply raises_convertToStatement, call_or_block_converts, Hk|].
  intros; apply raises_ret.
Qed.



(** ** Translation errors *)

(** [contains_unsupported n]: a node of a kind [cps] has no case for
    occurs in [n], wherever it is. *)
Fixpoint contains_unsupported (n : node) : bool :=
  match n with
  | OtherNode _ _ => true
  | Program body | BlockStatement body => existsb contains_unsupported body
  | IfStatement test consequent alternate =>
      contains_unsupported test || contains_unsupported consequent
      || from_option contains_unsupported false alternate
  | ConditionalExpression test consequent alternate =>
      contains_unsupported test || contains_unsupported consequent
      || contains_unsupported alternate
  | VariableDeclaration _ declarations =>
      existsb
        (λ d, contains_unsupported d.1
              || from_option contains_unsupported false d.2)
        declarations
  | Identifier _ | Literal _ | EmptyStatement => false
  | FunctionExpression id params body =>
      from_option contains_unsupported false id
      || existsb contains_unsupported params || contains_unsupported body
  | CallExpression callee arguments =>
      contains_unsupported callee || existsb contains_unsupported arguments
  | ArrayExpression elements => existsb contains_unsupported elements
  | ObjectExpression properties =>
      existsb
        (λ p, contains_unsupported p.1.2 || contains_unsupported p.2)
        properties
  | MemberExpression object property _ =>
      contains_unsupported object || contains_unsupported property
  | UnaryExpression _ argument _ => contains_unsupported argument
  | BinaryExpression _ leftNode rightNode =>
      contains_unsupported leftNode || contains_unsupported rightNode
  | ReturnStatement argument =>
      from_option contains_unsupported false argument
  | ExpressionStatement expression => contains_unsupported expression
  end.

(** C8, as stated, fails twice.  The call [this.f(1)] contains a node of an
    unsupported kind, [this], and compiles: the callee of a member call is
    emitted as it is.  And a declaration with two declarators fails the
    assertion [2 == 1], whose message names no node kind. *)
Lemma unsupported_node_not_reached :
  contains_unsupported
    (CallExpression
       (MemberExpression (OtherNode ThisExpression []) (Identifier "f") false)
       [Literal (LNum 1)]) = true ∧
  cps
    (CallExpression
       (MemberExpression (OtherNode ThisExpression []) (Identifier "f") false)
       [Literal (LNum 1)])
    (Identifier "k") 0 =
    Done
      (CallExpression
         (FunctionExpression None [Identifier "_s1"]
            (BlockStatement
               [ExpressionStatement
                  (CallExpression (Identifier "k")
                     [CallExpression
                        (MemberExpression (OtherNode ThisExpression [])
                           (Identifier "f") false)
                        [Identifier "_s1"]])]))
         [Literal (LNum 1)])
      1 ∧
  cps (VariableDeclaration "var"
         [(Identifier "x", Some (Literal (LNum 1)));
          (Identifier "y", Some (Literal (LNum 2)))])
    (Identifier "k") 0
  = Raised (AssertionError "2 == 1").
Proof. repeat split. Qed.

(** C8 (amended): whenever compilation reaches a construct that [cps]
    rejects (a node of an unsupported kind, a declaration that does not
    have exactly one declarator with an initialiser, a [return] without
    argument, a block without statements), [cps] raises an error and
    returns no tree.  Where [Program] occurs at the root of the tree only,
    the error is that of a rejected construct of the tree: for a node of
    an unsupported kind, the error that names its kind; for a declaration
    with [n] declarators, the failed assertion [n == 1]. *)
Theorem cps_failure_reported n cont s :
  reaches_rejected n = true →
  ∃ e, cps n cont s = Raised e ∧
       (nested_program n = false → e ∈ failures n).
Proof.
  intros Hr. destruct (cps n cont s) as [out s'|e] eqn:H.
  - apply cps_compiled_ok in H as (_ & Hok & _). congruence.
  - exists e. split; [done|]. intros Hp.
    by apply cps_reported in H as [? _].
Qed.

Lemma cps_failure_reported_witness :
  ∃ e,
    cps (Program
           [ExpressionStatement
              (CallExpression (Identifier "f")
                 [OtherNode ThisExpression []; Literal (LNum 1)])])
      (Identifier "k") 0 = Raised e ∧
    e ∈ [Error "cps: unknown node type: ThisExpression"].
Proof.
  destruct (cps_failure_reported
              (Program
                 [ExpressionStatement
                    (CallExpression (Identifier "f")
                       [OtherNode ThisExpression []; Literal (LNum 1)])])
              (Identifier "k") 0 eq_refl) as (e & He & Hin).
  exists e. split; [done|]. by apply Hin.
Defined.

(** ** Shapes *)

(** The trees the shapes are stated with are written out node by node.
    [as_statement n] is [n] when it is a statement, and the expression
    statement of [n] otherwise; [as_block body] is [body] when it is a
    block, and the block of the one statement [as_statement body]
    otherwise. *)
Definition as_statement (n : node) : node :=
  if is_Statement n then n else ExpressionStatement n.

Definition as_block (body : node) : node :=
  match body with
  | BlockStatement _ => body
  | _ => BlockStatement [as_statement body]
  end.

(** [nest bindings final]: the first node of [bindings] is compiled against
    the function that binds the variable paired with it, whose body is
    what the nodes after it have been compiled to in the same way; the
    innermost body is what [final] gives. *)
Definition nest (bindings : list (node * node)) (final : M node) : M node :=
  foldr
    (λ binding inner,
       let* body := inner in
       cps binding.1 (FunctionExpression None [binding.2] (as_block body)))
    final bindings.

Definition is_atom (n : node) : bool :=
  match n with
  | Identifier _ | Literal _ => true
  | _ => false
  end.

(** [wrap bindings inner]: the tree [nest] gives when the nodes are
    identifiers and literals: [(function (v1) { (function (v2) { ... inner
    ... })(a2) })(a1)]. *)
Definition wrap (bindings : list (node * node)) (inner : node) : node :=
  foldr
    (λ binding body,
       CallExpression
         (FunctionExpression None [binding.2] (as_block body)) [binding.1])
    inner bindings.

Lemma bind_congr {A B} (m : M A) (f g : A → M B) s :
  (∀ a s1, m s = Done a s1 → f a s1 = g a s1) → bind m f s = bind m g s.
Proof. intros H. unfold bind. destruct (m s); [by apply H|done]. Qed.

Lemma convertToStatement_call_or_block n s :
  call_or_block n → convertToStatement n s = Done (as_statement n) s.
Proof. by destruct n. Qed.

Lemma buildFunc_call_or_block args body s :
  call_or_block body →
  buildFunc args body s = Done (FunctionExpression None args (as_block body)) s.
Proof. by destruct body. Qed.

Lemma cps_call_or_block n cont s out s' :
  visits_program n = false → cps n cont s = Done out s' → call_or_block out.
Proof. intros Hp H. by apply cps_compiled_ok in H as (_ & _ & Hk); auto. Qed.

Lemma thread_nest bindings final s :
  existsb visits_program bindings.*1 = false →
  (∀ out s', final s = Done out s' → call_or_block out) →
  thread bindings final s = nest bindings final s ∧
  ∀ out s', thread bindings final s = Done out s' → call_or_block out.
Proof.
  intros Hp Hfinal. induction bindings as [|[n v] rest IH]; [done|].
  cbn [fmap list_fmap existsb fst] in Hp.
  apply orb_false_elim in Hp as [Hn Hrest].
  destruct (IH Hrest) as [IHeq IHk].
  cbn [thread nest foldr fst snd]. fold (nest rest final). split.
  - unfold bind at 1 3. rewrite <- IHeq.
    destruct (thread rest final s) as [body s1|e] eqn:Hbody; [|done].
    by rewrite (bind_Done_l _ _ _ _ _
                  (buildFunc_call_or_block [v] body s1 (IHk _ _ eq_refl))).
  - intros out s' H. inv_done H. by apply (cps_call_or_block n) in H.
Qed.

Lemma cps_atom_Done n cont s :
  is_atom n = true → cps n cont s = Done (CallExpression cont [n]) s.
Proof. by destruct n. Qed.

Lemma wrap_call_or_block bindings inner :
  call_or_block inner → call_or_block (wrap bindings inner).
Proof. by destruct bindings. Qed.

Lemma nest_atoms bindings final fin s s' :
  forallb is_atom bindings.*1 = true →
  call_or_block fin →
  final s = Done fin s' →
  nest bindings final s = Done (wrap bindings fin) s'.
Proof.
  intros Hatoms Hfin Hfinal.
  induction bindings as [|[n v] rest IH]; [done|].
  cbn [fmap list_fmap forallb fst] in Hatoms.
  apply andb_true_iff in Hatoms as [Hn Hrest].
  cbn [nest wrap foldr fst snd]. fold (nest rest final) (wrap rest fin).
  rewrite (bind_Done_l _ _ _ _ _ (IH Hrest)).
  by apply cps_atom_Done.
Qed.

Lemma atoms_no_program nodes :
  forallb is_atom nodes = true → existsb visits_program nodes = false.
Proof.
  induction nodes as [|n nodes IH]; [done|]. cbn [forallb existsb].
  intros [Hn Hrest]%andb_true_iff. rewrite (IH Hrest).
  by destruct n.
Qed.

Lemma cps_member_thread callee arguments cont s :
  is_MemberExpression callee = true →
  cps (CallExpression callee arguments) cont s =
  thread (zip arguments (seq_vars s (length arguments)))
    (ret (CallExpression cont
            [CallExpression callee (seq_vars s (length arguments))]))
    (s + length arguments).
Proof.
  intros Hm. rewrite cps_member_call by done.
  by rewrite cpsSequence_0_thread.
Qed.

Lemma cps_compound_thread callee arguments cont s :
  is_MemberExpression callee = false →
  cps (CallExpression callee arguments) cont s =
  thread
    (zip (callee :: arguments)
       (gensym_var "s" (S s) :: seq_vars (S s) (length arguments)))
    (ret (CallExpression (gensym_var "s" (S s))
            (cont :: seq_vars (S s) (length arguments))))
    (s + S (length arguments)).
Proof.
  intros Hm. rewrite cps_compound_call by done.
  rewrite cpsSequence_0_thread. cbn [length]. by rewrite seq_vars_S.
Qed.

Lemma cps_member_nest callee arguments cont s :
  is_MemberExpression callee = true →
  existsb visits_program arguments = false →
  cps (CallExpression callee arguments) cont s =
  nest (zip arguments (seq_vars s (length arguments)))
    (ret (CallExpression cont
            [CallExpression callee (seq_vars s (length arguments))]))
    (s + length arguments).
Proof.
  intros Hm Hp. rewrite cps_member_thread by done.
  apply thread_nest; [by rewrite zip_seq_vars_fst|by intros ?? [= <- _]].
Qed.

Lemma cps_compound_nest callee arguments cont s :
  is_MemberExpression callee = false →
  visits_program callee = false →
  existsb visits_program arguments = false →
  cps (CallExpression callee arguments) cont s =
  nest
    (zip (callee :: arguments)
       (gensym_var "s" (S s) :: seq_vars (S s) (length arguments)))
    (ret (CallExpression (gensym_var "s" (S s))
            (cont :: seq_vars (S s) (length arguments))))
    (s + S (length arguments)).
Proof.
  intros Hm Hpc Hpa. rewrite cps_compound_thread by done.
  apply thread_nest; [|by intros ?? [= <- _]].
  rewrite <- seq_vars_S.
  change (S (length arguments)) with (length (callee :: arguments)).
  rewrite zip_seq_vars_fst. cbn [existsb]. by rewrite Hpc, Hpa.
Qed.



(** A call whose callee is a member expression keeps its callee as it is,
    uncompiled, and applies it to the variables bound to the arguments; the
    continuation gets the result.  Any other call binds callee and
    arguments alike and passes the continuation as the first argument.
    When what is bound are identifiers and literals, the tree is
    [(function (_s1) { ... (function (_sn) { call })(an) ... })(a1)]. *)
Theorem cpsApplication_shape callee arguments cont s :
  let member_call vars := CallExpression cont [CallExpression callee vars] in
  let compound_call v vars := CallExpression v (cont :: vars) in
  let v0 := gensym_var "s" (S s) in
  (existsb visits_program arguments = false →
   (is_MemberExpression callee = true →
    let vars := seq_vars s (length arguments) in
    cps (CallExpression callee arguments) cont s =
    nest (zip arguments vars) (ret (member_call vars))
      (s + length arguments)) ∧
   (is_MemberExpression callee = false → visits_program callee = false →
    let vars := seq_vars (S s) (length arguments) in
    cps (CallExpression callee arguments) cont s =
    nest (zip (callee :: arguments) (v0 :: vars))
      (ret (compound_call v0 vars))
      (s + S (length arguments)))) ∧
  (forallb is_atom arguments = true →
   (is_MemberExpression callee = true →
    let vars := seq_vars s (length arguments) in
    cps (CallExpression callee arguments) cont s =
    Done (wrap (zip arguments vars) (member_call vars))
      (s + length arguments)) ∧
   (is_atom callee = true →
    let vars := seq_vars (S s) (length arguments) in
    cps (CallExpression callee arguments) cont s =
    Done (wrap (zip (callee :: arguments) (v0 :: vars))
            (compound_call v0 vars))
      (s + S (length arguments)))).
Proof.
  cbv zeta. split.
  - intros Hp. split.
    + intros Hm. by apply cps_member_nest.
    + intros Hm Hpc. by apply cps_compound_nest.
  - intros Hargs. pose proof (atoms_no_program _ Hargs) as Hp. split.
    + intros Hm. rewrite cps_member_nest by done.
      apply nest_atoms; [|done|done]. by rewrite zip_seq_vars_fst.
    + intros Hc.
      rewrite cps_compound_nest by (done || by destruct callee).
      apply nest_atoms; [|done|done].
      rewrite <- seq_vars_S.
      change (S (length arguments)) with (length (callee :: arguments)).
      rewrite zip_seq_vars_fst. cbn [forallb]. by rewrite Hc, Hargs.
Qed.

Lemma cpsApplication_shape_witness :
  cps (CallExpression (Identifier "f") [Identifier "a"]) (Identifier "k") 0 =
  Done
    (CallExpression
       (FunctionExpression None [Identifier "_s1"]
          (BlockStatement
             [ExpressionStatement
                (CallExpression
                   (FunctionExpression None [Identifier "_s2"]
                      (BlockStatement
                         [ExpressionStatement
                            (CallExpression (Identifier "_s1")
                               [Identifier "k"; Identifier "_s2"])]))
                   [Identifier "a"])]))
       [Identifier "f"])
    2.
Proof.
  apply (cpsApplication_shape (Identifier "f") [Identifier "a"]
           (Identifier "k") 0); reflexivity.
Defined.



(** An [if] without [else] compiles to the call
    [(function (_cont(s+1)) { body })(cont)], where [body] is the test
    compiled against [function (_test(s+2)) { if (_test(s+2)) consequent
    else cont(undefined) }]: the consequent is compiled against the fresh
    name [_cont(s+1)] the continuation is bound to, but the branch taken
    when the test fails calls the continuation expression itself, a second
    copy of it, with [undefined].  The consequent is compiled before the
    test, so its names come first.  [Program] is taken to occur at the
    root of a tree only. *)
Theorem cpsIf_without_else test consequent cont s :
  visits_program test = false →
  visits_program consequent = false →
  let contName := gensym_var "cont" (S s) in
  let testName := gensym_var "test" (S (S s)) in
  cps (IfStatement test consequent None) cont s =
  (let* consequentNode := cps consequent contName in
   let* body :=
     cps test
       (FunctionExpression None [testName]
          (BlockStatement
             [IfStatement testName (as_statement consequentNode)
                (Some (ExpressionStatement
                         (CallExpression cont [undefinedIdentifier])))])) in
   ret (CallExpression
          (FunctionExpression None [contName] (as_block body)) [cont]))
    (S (S s)).
Proof.
  intros Hpt Hpc. cbv zeta. cbn [cps]. unfold cpsIf_.
  rewrite (bind_Done_l _ _ _ _ _ (makeGensymVariable_eq "cont" s)).
  rewrite (bind_Done_l _ _ _ _ _ (makeGensymVariable_eq "test" (S s))).
  apply bind_congr. intros consequentNode s1 Hc.
  apply (cps_call_or_block consequent) in Hc; [|done].
  rewrite (bind_Done_l _ _ s1 _ s1) by reflexivity.
  rewrite (bind_Done_l _ _ _ _ _
             (convertToStatement_call_or_block consequentNode s1 Hc)).
  rewrite (bind_Done_l _ _ s1 _ s1) by reflexivity.
  rewrite (bind_Done_l _ _ s1 _ s1) by reflexivity.
  apply bind_congr. intros body s2 Hb.
  apply (cps_call_or_block test) in Hb; [|done].
  by rewrite (bind_Done_l _ _ _ _ _
                (buildFunc_call_or_block [gensym_var "cont" (S s)] body s2 Hb)).
Qed.

Lemma cpsIf_without_else_witness :
  cps (IfStatement (Literal (LBool false))
         (BlockStatement [ExpressionStatement (Literal (LNum 1))]) None)
    (FunctionExpression None [Identifier "x"] (BlockStatement [])) 0
  = Done
      (CallExpression
         (FunctionExpression None [Identifier "_cont1"]
            (BlockStatement
               [ExpressionStatement
                  (CallExpression
                     (FunctionExpression None [Identifier "_test2"]
                        (BlockStatement
                           [IfStatement (Identifier "_test2")
                              (ExpressionStatement
                                 (CallExpression (Identifier "_cont1")
                                    [Literal (LNum 1)]))
                              (Some
                                 (ExpressionStatement
                                    (CallExpression
                                       (FunctionExpression None
                                          [Identifier "x"]
                                          (BlockStatement []))
                                       [Identifier "undefined"])))]))
                     [Literal (LBool false)])]))
         [FunctionExpression None [Identifier "x"] (BlockStatement [])])
      2.
Proof.
  rewrite (cpsIf_without_else (Literal (LBool false))
             (BlockStatement [ExpressionStatement (Literal (LNum 1))])
             (FunctionExpression None [Identifier "x"] (BlockStatement []))
             0 eq_refl eq_refl).
  reflexivity.
Defined.

(** A function declaration that opens a block of two statements or more is
    compiled on the spot and bound by a plain [var] in the block itself,
    not under a continuation; the rest of the block is compiled after it
    and, when it comes out as a block, spliced in rather than nested. *)
Theorem cpsBlock_function_declaration
    kind id fid params body rest cont s out s' :
  rest ≠ [] →
  cpsBlock
    (VariableDeclaration kind
       [(id, Some (FunctionExpression fid params body))] :: rest)
    cont s = Done out s' →
  ∃ newInit s1 remainder stmts,
    cpsAtomic (FunctionExpression fid params body) s = Done newInit s1 ∧
    cpsBlock rest cont s1 = Done remainder s' ∧
    out = BlockStatement
            (VariableDeclaration "var" [(id, Some newInit)] :: stmts) ∧
    match remainder with
    | BlockStatement inner => stmts = inner
    | _ => convertToStatement remainder s' = Done (hd remainder stmts) s' ∧
           length stmts = 1
    end.
Proof.
  intros Hne H. rewrite cpsBlock_long in H by done.
  cbn [isFunctionDeclaration is_FunctionExpression] in H.
  rewrite (bind_Done_l _ _ s true s) in H by reflexivity.
  cbv beta iota in H. unfold cpsAtomic_nullable in H.
  inv_done H.
  exists a, s0, a0.
  destruct a0; inv_done H; subst;
    try (pose proof Hd1 as Hc; apply convertToStatement_Done in Hc as [-> _];
         eexists; repeat split; eauto; done).
  eexists; repeat split; eauto.
Qed.

Lemma cpsBlock_function_declaration_witness :
  ∃ newInit s1 remainder stmts,
    cpsAtomic
      (FunctionExpression None []
         (BlockStatement [ReturnStatement (Some (Literal (LNum 1)))])) 0
    = Done newInit s1 ∧
    cpsBlock [ExpressionStatement (CallExpression (Identifier "f") [])]
      (Identifier "k") s1 = Done remainder 2 ∧
    BlockStatement
      [VariableDeclaration "var"
         [(Identifier "f",
           Some (FunctionExpression None [Identifier "_k1"]
                   (BlockStatement
                      [VariableDeclaration "var"
                         [(returnContIdentifier, Some (Identifier "_k1"))];
                       ExpressionStatement
                         (CallExpression returnContIdentifier
                            [Literal (LNum 1)])])))];
       ExpressionStatement
         (CallExpression
            (FunctionExpression None [Identifier "_s2"]
               (BlockStatement
                  [ExpressionStatement
                     (CallExpression (Identifier "_s2") [Identifier "k"])]))
            [Identifier "f"])]
    = BlockStatement
        (VariableDeclaration "var" [(Identifier "f", Some newInit)] :: stmts) ∧
    match remainder with
    | BlockStatement inner => stmts = inner
    | _ => convertToStatement remainder 2 = Done (hd remainder stmts) 2 ∧
           length stmts = 1
    end.
Proof.
  apply (cpsBlock_function_declaration "const" (Identifier "f") None []
           (BlockStatement [ReturnStatement (Some (Literal (LNum 1)))])
           [ExpressionStatement (CallExpression (Identifier "f") [])]
           (Identifier "k") 0).
  - discriminate.
  - reflexivity.
Defined.

(** ** The calling convention and the continuation of an [if] *)






(** C3, at the program [if (t) { 1 } 2] compiled against [done]: the
    continuation of the [if] is the function that runs the rest of the
    program, [function (_s1) { done(2) }].  It is bound to [_cont2], and
    the consequent calls [_cont2]; but the alternate branch does not: it
    holds a second copy of the whole function, called with [undefined]. *)
Example cpsIf_alternate_copies_continuation :
  let rest :=
    FunctionExpression None [Identifier "_s1"]
      (BlockStatement
         [ExpressionStatement
            (CallExpression (Identifier "done") [Literal (LNum 2)])]) in
  cps (Program
         [IfStatement (Identifier "t")
            (BlockStatement [ExpressionStatement (Literal (LNum 1))]) None;
          ExpressionStatement (Literal (LNum 2))])
    (Identifier "done") 0
  = Done
      (Program
         [ExpressionStatement
            (CallExpression
               (FunctionExpression None [Identifier "_cont2"]
                  (BlockStatement
                     [ExpressionStatement
                        (CallExpression
                           (FunctionExpression None [Identifier "_test3"]
                              (BlockStatement
                                 [IfStatement (Identifier "_test3")
                                    (ExpressionStatement
                                       (CallExpression (Identifier "_cont2")
                                          [Literal (LNum 1)]))
                                    (Some
                                       (ExpressionStatement
                                          (CallExpression rest
                                             [Identifier "undefined"])))]))
                           [Identifier "t"])]))
               [rest])])
      3.
Proof. reflexivity. Qed.

(** ** When compilation succeeds *)








(** ** More shapes *)

(** A conditional expression binds the continuation to [_cont(s+1)] and
    compiles both branches against that name, the consequent first, then
    the alternate, then the test; the test is compiled against the
    function [function (_test(s+2)) { _test(s+2) ? consequent : alternate }].
    [Program] is taken to occur at the root of a tree only. *)
Theorem cpsConditional_shape test consequent alternate cont s :
  visits_program test = false →
  let contName := gensym_var "cont" (S s) in
  let testName := gensym_var "test" (S (S s)) in
  cps (ConditionalExpression test consequent alternate) cont s =
  (let* consequentNode := cps consequent contName in
   let* alternateNode := cps alternate contName in
   let* body :=
     cps test
       (FunctionExpression None [testName]
          (BlockStatement
             [ExpressionStatement
                (ConditionalExpression testName consequentNode
                   alternateNode)])) in
   ret (CallExpression
          (FunctionExpression None [contName] (as_block body)) [cont]))
    (S (S s)).
Proof.
  intros Hpt. cbv zeta. cbn [cps]. unfold cpsConditional_.
  rewrite (bind_Done_l _ _ _ _ _ (makeGensymVariable_eq "cont" s)).
  rewrite (bind_Done_l _ _ _ _ _ (makeGensymVariable_eq "test" (S s))).
  apply bind_congr. intros consequentNode s1 _.
  apply bind_congr. intros alternateNode s2 _.
  rewrite (bind_Done_l _ _ s2 _ s2) by reflexivity.
  apply bind_congr. intros body s3 Hb.
  apply (cps_call_or_block test) in Hb; [|done].
  by rewrite (bind_Done_l _ _ _ _ _
                (buildFunc_call_or_block [gensym_var "cont" (S s)] body s3 Hb)).
Qed.

Lemma cpsConditional_shape_witness :
  cps (ConditionalExpression (Identifier "t") (Literal (LNum 1))
         (Literal (LNum 2)))
    (Identifier "k") 0
  = Done
      (CallExpression
         (FunctionExpression None [Identifier "_cont1"]
            (BlockStatement
               [ExpressionStatement
                  (CallExpression
                     (FunctionExpression None [Identifier "_test2"]
                        (BlockStatement
                           [ExpressionStatement
                              (ConditionalExpression (Identifier "_test2")
                                 (CallExpression (Identifier "_cont1")
                                    [Literal (LNum 1)])
                                 (CallExpression (Identifier "_cont1")
                                    [Literal (LNum 2)]))]))
                     [Identifier "t"])]))
         [Identifier "k"])
      2.
Proof.
  rewrite (cpsConditional_shape (Identifier "t") (Literal (LNum 1))
             (Literal (LNum 2)) (Identifier "k") 0 eq_refl).
  reflexivity.
Defined.

(** A member access compiles its object against a function that binds
    [_obj(s+1)].  The property of a static access is kept as it is, and
    never compiled.  The property of a computed access is compiled against
    a function that binds [_prop(s+2)], inside the function of the object:
    the object comes first in the output, though the property is compiled
    first, and the access the continuation gets is
    [_obj(s+1)[_prop(s+2)]].  [Program] is taken to occur at the root of a
    tree only. *)
Theorem cpsMemberExpression_shape object property computed cont s :
  let objName := gensym_var "obj" (S s) in
  let propName := gensym_var "prop" (S (S s)) in
  let access property :=
    BlockStatement
      [ExpressionStatement
         (CallExpression cont [MemberExpression objName property computed])] in
  if computed then
    visits_program property = false →
    cps (MemberExpression object property computed) cont s =
    (let* body := cps property
                    (FunctionExpression None [propName] (access propName)) in
     cps object (FunctionExpression None [objName] (as_block body)))
      (S (S s))
  else
    cps (MemberExpression object property computed) cont s =
    cps object (FunctionExpression None [objName] (access property)) (S s).
Proof.
  cbv zeta. destruct computed.
  - intros Hpp. cbn [cps]. unfold cpsMemberExpression_.
    rewrite (bind_Done_l _ _ _ _ _ (makeGensymVariable_eq "obj" s)).
    rewrite (bind_Done_l _ _ _ _ _ (makeGensymVariable_eq "prop" (S s))).
    rewrite (bind_Done_l _ _ (S (S s)) _ (S (S s))) by reflexivity.
    apply bind_congr. intros body s1 Hb.
    apply (cps_call_or_block property) in Hb; [|done].
    by rewrite (bind_Done_l _ _ _ _ _
                  (buildFunc_call_or_block [gensym_var "obj" (S s)] body s1 Hb)).
  - reflexivity.
Qed.

Lemma cpsMemberExpression_shape_witness :
  cps (MemberExpression (Identifier "a") (Identifier "i") true)
    (Identifier "k") 0
  = Done
      (CallExpression
         (FunctionExpression None [Identifier "_obj1"]
            (BlockStatement
               [ExpressionStatement
                  (CallExpression
                     (FunctionExpression None [Identifier "_prop2"]
                        (BlockStatement
                           [ExpressionStatement
                              (CallExpression (Identifier "k")
                                 [MemberExpression (Identifier "_obj1")
                                    (Identifier "_prop2") true])]))
                     [Identifier "i"])]))
         [Identifier "a"])
      2.
Proof.
  rewrite (cpsMemberExpression_shape (Identifier "a") (Identifier "i") true
             (Identifier "k") 0 eq_refl).
  reflexivity.
Defined.
